(** * check-problems.py: statement analysis and metadata defaults checker

    A shallow embedding of the parts of [check-problems.py] that analyse a
    problem statement (the plasTeX tree walk [_dfs], the detectors of
    [_parse_for_tex_errors], the line checks of [_check_statement]), the
    recursive metadata checker [_check_metadata_recursive], the issue log
    [_log] and the spelling dictionary store.

    Python strings are modelled as lists of ASCII characters; the regular
    expressions of the script are modelled as terms of a small regex syntax
    with a backtracking matcher that follows the priorities of Python's
    [re] engine (greedy repetition, left-first alternation, lookahead). *)

From Stdlib Require Import Ascii String List Bool Arith Lia NArith.
From Stdlib Require Import Sorting.Permutation Sorting.Sorted.
Import ListNotations.

Local Open Scope bool_scope.
Local Set Warnings "-register-all".

(** ** Python strings *)

Definition pystr := list ascii.

Local Coercion list_ascii_of_string : string >-> list.

Definition py (s : string) : pystr := list_ascii_of_string s.

Definition ascii_eqb (a b : ascii) : bool := Ascii.eqb a b.

Fixpoint str_eqb (s t : pystr) : bool :=
  match s, t with
  | [], [] => true
  | a :: s', b :: t' => ascii_eqb a b && str_eqb s' t'
  | _, _ => false
  end.

(** [str.lower] on the ASCII range. *)
Definition lower_char (c : ascii) : ascii :=
  let n := nat_of_ascii c in
  if (65 <=? n) && (n <=? 90) then ascii_of_nat (n + 32) else c.

Definition lower (s : pystr) : pystr := map lower_char s.

Definition is_digit (c : ascii) : bool :=
  let n := nat_of_ascii c in (48 <=? n) && (n <=? 57).

Definition is_alpha (c : ascii) : bool :=
  let n := nat_of_ascii c in
  ((65 <=? n) && (n <=? 90)) || ((97 <=? n) && (n <=? 122)).

(** [\w] of a [re.U] pattern, on the ASCII range. *)
Definition is_word (c : ascii) : bool :=
  is_alpha c || is_digit c || ascii_eqb c "_"%char.

(** [\s] of a [re.U] pattern ([str.isspace]) on the ASCII range:
    9 to 13, 28 to 31 and the space. *)
Definition is_space (c : ascii) : bool :=
  let n := nat_of_ascii c in
  ((9 <=? n) && (n <=? 13)) || ((28 <=? n) && (n <=? 32)).

(** ** Regular expressions and a backtracking matcher *)

Inductive regex : Type :=
| REmpty                               (* the empty pattern *)
| RCls (f : ascii -> bool)             (* one character of a class *)
| RSeq (r1 r2 : regex)
| RAlt (r1 r2 : regex)                 (* r1|r2, left first *)
| RStar (f : ascii -> bool)            (* [class]*, greedy *)
| RBound                               (* \b *)
| RBol                                 (* ^ without MULTILINE *)
| RNegLook (r : regex).                (* (?!r) *)

Definition word_at (s : pystr) (i : nat) : bool :=
  match nth_error s i with Some c => is_word c | None => false end.

(** [\b]: the characters on both sides differ in being word characters. *)
Definition boundary (s : pystr) (i : nat) : bool :=
  let before := match i with 0 => false | S j => word_at s j end in
  xorb before (word_at s i).

(** Greedy repetition of a character class: try the longest run first and
    give back one character at a time. [rest] is the input from [i] on. *)
Fixpoint star_go (f : ascii -> bool) (rest : pystr) (i : nat)
    (k : nat -> option nat) : option nat :=
  match rest with
  | [] => k i
  | c :: rest' =>
      if f c then
        match star_go f rest' (S i) k with
        | Some e => Some e
        | None => k i
        end
      else k i
  end.

(** [m r s i k]: match [r] in [s] from position [i], then the continuation
    [k]; the result is the end of the whole match. *)
Fixpoint m (r : regex) (s : pystr) (i : nat) (k : nat -> option nat)
    : option nat :=
  match r with
  | REmpty => k i
  | RCls f =>
      match nth_error s i with
      | Some c => if f c then k (S i) else None
      | None => None
      end
  | RSeq r1 r2 => m r1 s i (fun j => m r2 s j k)
  | RAlt r1 r2 =>
      match m r1 s i k with
      | Some e => Some e
      | None => m r2 s i k
      end
  | RStar f => star_go f (skipn i s) i k
  | RBound => if boundary s i then k i else None
  | RBol => if Nat.eqb i 0 then k i else None
  | RNegLook r' =>
      match m r' s i (fun j => Some j) with
      | Some _ => None
      | None => k i
      end
  end.

Definition match_at (r : regex) (s : pystr) (i : nat) : option nat :=
  m r s i (fun j => Some j).

(** [pattern.search(s) is not None]: a match starting at some position. *)
Definition search (r : regex) (s : pystr) : bool :=
  existsb (fun i => match match_at r s i with Some _ => true | None => false end)
    (seq 0 (S (length s))).

(** [pattern.match(s) is not None]: a match starting at position 0. *)
Definition re_match (r : regex) (s : pystr) : bool :=
  match match_at r s 0 with Some _ => true | None => false end.

(** [pattern.finditer(s)]: the spans of the successive matches, scanning
    left to right and resuming at the end of each match. (None of the
    patterns of the script can match the empty string.) *)
Fixpoint finditer_go (r : regex) (s : pystr) (fuel pos : nat)
    : list (nat * nat) :=
  match fuel with
  | 0 => []
  | S fuel' =>
      if length s <? pos then []
      else match match_at r s pos with
           | Some j => (pos, j) :: finditer_go r s fuel'
                                     (if Nat.eqb j pos then S pos else j)
           | None => finditer_go r s fuel' (S pos)
           end
  end.

Definition substr (s : pystr) (i j : nat) : pystr := firstn (j - i) (skipn i s).

Definition finditer (r : regex) (s : pystr) : list pystr :=
  map (fun '(i, j) => substr s i j) (finditer_go r s (S (length s)) 0).

(** Building blocks for patterns. *)
Definition lit (c : ascii) : regex := RCls (fun x => ascii_eqb x c).
(** A literal under [re.I]. *)
Definition lit_i (c : ascii) : regex :=
  RCls (fun x => ascii_eqb (lower_char x) (lower_char c)).
Fixpoint seq_of (rs : list regex) : regex :=
  match rs with
  | [] => REmpty
  | [r] => r
  | r :: rs' => RSeq r (seq_of rs')
  end.
Definition word_i (w : string) : regex := seq_of (map lit_i (list_ascii_of_string w)).
Definition plus (f : ascii -> bool) : regex := RSeq (RCls f) (RStar f).
Definition opt (r : regex) : regex := RAlt r REmpty.

(** ** Python sets of strings, [sorted] and [repr] *)

Definition str_in (w : pystr) (l : list pystr) : bool := existsb (str_eqb w) l.

(** [set.add]: insert unless already present. *)
Definition set_add (w : pystr) (l : list pystr) : list pystr :=
  if str_in w l then l else l ++ [w].

Definition set_of (l : list pystr) : list pystr := fold_left (fun acc w => set_add w acc) l [].

(** [a - b] for sets. *)
Definition set_diff (a b : list pystr) : list pystr := filter (fun w => negb (str_in w b)) a.

(** [a | b] for sets. *)
Definition set_union (a b : list pystr) : list pystr := fold_left (fun acc w => set_add w acc) b a.

(** Code-point order of Python strings. *)
Fixpoint str_ltb (s t : pystr) : bool :=
  match s, t with
  | _, [] => false
  | [], _ :: _ => true
  | a :: s', b :: t' =>
      let x := nat_of_ascii a in let y := nat_of_ascii b in
      if x <? y then true else if y <? x then false else str_ltb s' t'
  end.

Fixpoint insert_sorted (w : pystr) (l : list pystr) : list pystr :=
  match l with
  | [] => [w]
  | x :: l' => if str_ltb w x then w :: x :: l' else x :: insert_sorted w l'
  end.

(** [sorted(...)]. *)
Definition sorted (l : list pystr) : list pystr := fold_right insert_sorted [] l.

Definition dquote : ascii := ascii_of_nat 34.
Definition squote : ascii := ascii_of_nat 39.
Definition bslash : ascii := ascii_of_nat 92.

Definition hex_digit (n : nat) : ascii :=
  if n <? 10 then ascii_of_nat (48 + n) else ascii_of_nat (87 + n).

(** One character inside the [repr] of a string quoted with [q]. *)
Definition repr_char (q c : ascii) : pystr :=
  let n := nat_of_ascii c in
  if ascii_eqb c bslash then [bslash; bslash]
  else if ascii_eqb c q then [bslash; q]
  else if Nat.eqb n 9 then [bslash; "t"%char]
  else if Nat.eqb n 10 then [bslash; "n"%char]
  else if Nat.eqb n 13 then [bslash; "r"%char]
  else if (n <? 32) || Nat.eqb n 127 then
    [bslash; "x"%char; hex_digit (n / 16); hex_digit (n mod 16)]
  else [c].

(** [repr(s)]: single quotes unless [s] has a single quote and no double
    quote. *)
Definition repr_str (s : pystr) : pystr :=
  let q := if existsb (ascii_eqb squote) s && negb (existsb (ascii_eqb dquote) s)
           then dquote else squote in
  [q] ++ flat_map (repr_char q) s ++ [q].

Fixpoint join (sep : pystr) (l : list pystr) : pystr :=
  match l with
  | [] => []
  | [w] => w
  | w :: l' => w ++ sep ++ join sep l'
  end.

(** [repr] of a list of strings, as printed by an f-string. *)
Definition repr_list (l : list pystr) : pystr :=
  "["%string ++ join ", "%string (map repr_str l) ++ "]"%string.

(** ** The patterns of [_parse_for_tex_errors] *)

Definition not_space (c : ascii) : bool := negb (is_space c).

(** [plain_text_word_re = \b\w([^\s]*\w)?\b] *)
Definition plain_text_word_re : regex :=
  seq_of [RBound; RCls is_word; opt (RSeq (RStar not_space) (RCls is_word)); RBound].

Definition digit_dot_comma (c : ascii) : bool :=
  is_digit c || ascii_eqb c "."%char || ascii_eqb c ","%char.

Definition digit_comma (c : ascii) : bool := is_digit c || ascii_eqb c ","%char.

(** [missing_math_mode_re = ^[0-9.,]+] *)
Definition missing_math_mode_re : regex := RSeq RBol (plus digit_dot_comma).

(** [incorrect_math_re = \b([0-9]+[0-9,]*,[0-9]+|[0-9]{4,})\b] *)
Definition incorrect_math_re : regex :=
  seq_of [RBound;
          RAlt (seq_of [plus is_digit; RStar digit_comma; lit ","%char; plus is_digit])
               (seq_of [RCls is_digit; RCls is_digit; RCls is_digit; RCls is_digit;
                        RStar is_digit]);
          RBound].

(** ** The detectors of [_parse_for_tex_errors] *)

(** The sets [missing_math_mode], [misspelled_words], [incorrect_math]. *)
Record findings := { missing_math_mode : list pystr;
                     misspelled_words : list pystr;
                     incorrect_math : list pystr }.

Definition no_findings : findings := {| missing_math_mode := []; misspelled_words := [];
                                        incorrect_math := [] |}.

(** Python truthiness of [spelling_dictionary] (None or a set). *)
Definition truthy_dict (d : option (list pystr)) : bool :=
  match d with Some (_ :: _) => true | _ => false end.

(** The set [words] of [_check_plain_text]. *)
Definition plain_words (text : pystr) : list pystr :=
  set_of (finditer plain_text_word_re text).

(** [_check_plain_text(text)] *)
Definition check_plain_text (spelling_dictionary : option (list pystr))
    (text : pystr) (st : findings) : findings :=
  let words := plain_words text in
  match spelling_dictionary with
  | Some d =>
      if truthy_dict spelling_dictionary then
        fold_left (fun st word =>
            if re_match missing_math_mode_re word
            then {| missing_math_mode := set_add word (missing_math_mode st);
                    misspelled_words := misspelled_words st;
                    incorrect_math := incorrect_math st |}
            else {| missing_math_mode := missing_math_mode st;
                    misspelled_words := set_add word (misspelled_words st);
                    incorrect_math := incorrect_math st |})
          (set_diff words d) st
      else st
  | None => st
  end.

(** [_check_math_text(text)] *)
Definition check_math_text (text : pystr) (st : findings) : findings :=
  fold_left (fun st w =>
      {| missing_math_mode := missing_math_mode st;
         misspelled_words := misspelled_words st;
         incorrect_math := set_add w (incorrect_math st) |})
    (finditer incorrect_math_re text) st.

Definition msg_misspelled (ws : list pystr) : pystr :=
  "misspelled words: "%string ++ repr_list (sorted ws).
Definition msg_incorrect_math (ws : list pystr) : pystr :=
  "incorrect math: "%string ++ repr_list (sorted ws) ++
  " (use `"%string ++ [bslash] ++ ",` (backslash comma) to separate thousands groups)"%string.
Definition msg_missing_math (ws : list pystr) : pystr :=
  "missing math mode: "%string ++ repr_list (sorted ws).

(** Lines 313 to 321: run both detectors, then the warnings in the order of
    the code, each only for a non-empty set. *)
Definition detect (spelling_dictionary : option (list pystr)) (plain math : pystr)
    : list pystr :=
  let st := check_math_text math (check_plain_text spelling_dictionary plain no_findings) in
  (if misspelled_words st then [] else [msg_misspelled (misspelled_words st)]) ++
  (if incorrect_math st then [] else [msg_incorrect_math (incorrect_math st)]) ++
  (if missing_math_mode st then [] else [msg_missing_math (missing_math_mode st)]).

(** ** The plasTeX document tree and [_dfs] *)

(** A plasTeX node: a [Text] node (a string, without children) or any other
    node, with its [nodeName] and [childNodes]. Groups have the node name
    [bgroup] and inline math the node name [math]. *)
Inductive node : Type :=
| Text (payload : pystr)
| Elem (nodeName : pystr) (childNodes : list node).

(** The two lists [plain_text] and [math_text] that [_dfs] appends to. *)
Definition sp : pystr := " "%string.

Definition streams := (list pystr * list pystr)%type.

(** [_dfs(node, plain_text, math_text, path, in_math)]; the [path] list is
    only used for debugging output and is left out. *)
Fixpoint dfs (in_math : bool) (n : node) (st : streams) {struct n} : streams :=
  let '(plain_text, math_text) := st in
  match n with
  | Text s =>
      if in_math then (plain_text, math_text ++ [lower s])
      else (plain_text ++ [lower s], math_text)
  | Elem name children =>
      let text := name ++ " "%string in
      let '(st', in_math') :=
        if in_math then ((plain_text, math_text ++ [text]), true)
        else if str_eqb name "bgroup"%string
        then ((plain_text ++ [sp], math_text ++ [sp]), false)
        else if str_eqb name "math"%string
        then ((plain_text, math_text ++ [sp]), true)
        else ((plain_text, math_text), false) in
      (fix go (cs : list node) (st : streams) : streams :=
         match cs with
         | [] => st
         | c :: cs' => go cs' (dfs in_math' c st)
         end) children st'
  end.

(** Lines 309 to 312 and the joins of lines 313 and 314. *)
Definition classify (document : node) : pystr * pystr :=
  let '(plain_text, math_text) := dfs false document ([], []) in
  (concat plain_text, concat math_text).

(** ** The issue log [_ERRORS] and a state and exception monad *)

(** The exceptions that matter here; [PlasTeXError] is whatever the plasTeX
    parser raises. *)
Inductive exn : Type :=
| TypeError (msg : pystr)
| KeyError (key : pystr)
| PlasTeXError (msg : pystr).

(** Arguments of a Python call: strings or an exception object. *)
Inductive pyval : Type :=
| VStr (s : pystr)
| VExn (e : exn).

Definition exn_eqb (a b : exn) : bool :=
  match a, b with
  | TypeError x, TypeError y | KeyError x, KeyError y
  | PlasTeXError x, PlasTeXError y => str_eqb x y
  | _, _ => false
  end.

Definition pyval_eqb (a b : pyval) : bool :=
  match a, b with
  | VStr x, VStr y => str_eqb x y
  | VExn x, VExn y => exn_eqb x y
  | _, _ => false
  end.

(** [_ERRORS]: a dict from keys to lists of messages, in insertion order. *)
Definition errors_log := list (pyval * list pyval).

Inductive result (A : Type) : Type :=
| Ok (a : A)
| Raise (e : exn).
Arguments Ok {A} a.
Arguments Raise {A} e.

(** Python code that updates [_ERRORS] and may raise. *)
Definition PY (A : Type) := errors_log -> result A * errors_log.

Definition ret {A} (a : A) : PY A := fun l => (Ok a, l).
Definition raise {A} (e : exn) : PY A := fun l => (Raise e, l).
Definition bind {A B} (c : PY A) (f : A -> PY B) : PY B :=
  fun l => match c l with
           | (Ok a, l') => f a l'
           | (Raise e, l') => (Raise e, l')
           end.

Notation "x <- c ;; k" := (bind c (fun x => k))
  (at level 61, c at next level, right associativity).
Notation "c ;;; k" := (bind c (fun _ => k)) (at level 61, right associativity).

Fixpoint mapM_ {A} (f : A -> PY unit) (l : list A) : PY unit :=
  match l with
  | [] => ret tt
  | x :: l' => f x ;;; mapM_ f l'
  end.

(** [_log(dest, key, message)] on [_ERRORS]. *)
Fixpoint log_append (dest : errors_log) (key message : pyval) : errors_log :=
  match dest with
  | [] => [(key, [message])]
  | (k, msgs) :: dest' =>
      if pyval_eqb k key then (k, msgs ++ [message]) :: dest'
      else (k, msgs) :: log_append dest' key message
  end.

Definition _log (key message : pyval) : PY unit :=
  fun dest => (Ok tt, log_append dest key message).

(** [warning = lambda key, message: _log(_ERRORS, key, message)] (and
    [error], the same), called with a list of positional arguments. *)
Definition call_warning (args : list pyval) : PY unit :=
  match args with
  | [key; message] => _log key message
  | _ => raise (TypeError "<lambda>() takes 2 positional arguments"%string)
  end.

Definition warning (key message : pystr) : PY unit :=
  call_warning [VStr key; VStr message].
Definition error := warning.

(** The messages logged under a key. *)
Definition messages_for (key : pystr) (l : errors_log) : list pyval :=
  match find (fun '(k, _) => pyval_eqb k (VStr key)) l with
  | Some (_, msgs) => msgs
  | None => []
  end.

(** ** [_parse_for_tex_errors] *)

(** What [tex.parse()] does on the file: a document, or an exception. *)
Inductive parse_outcome : Type :=
| Parsed (document : node)
| ParseRaises (e : exn).

Definition parse_for_tex_errors (problem filename : pystr)
    (spelling_dictionary : option (list pystr))
    (plastex_loaded : bool) (parse : parse_outcome) : PY unit :=
  if negb plastex_loaded then
    error problem "could not load plasTeX for parsing problem description"%string
  else
    match parse with
    | ParseRaises e =>
        call_warning [VStr filename; VStr "could not parse tex"%string; VExn e] ;;;
        ret tt
    | Parsed document =>
        let '(plain_text, math_text) := classify document in
        mapM_ (warning filename) (detect spelling_dictionary plain_text math_text)
    end.

(** ** The line checks of [_check_statement] *)

Definition not_percent (c : ascii) : bool := negb (ascii_eqb c "%"%char).

(** [s = lambda p: re.compile(r'^[^%]*' + p, re.I | re.U).search] *)
Definition s_pat (p : regex) : regex := RSeq (RSeq RBol (RStar not_percent)) p.

Definition digit_dot (c : ascii) : bool := is_digit c || ascii_eqb c "."%char.

Definition dash_or_space (c : ascii) : bool :=
  ascii_eqb c "-"%char || ascii_eqb c " "%char.

(** [\\includegraphics(?!\[width=[0-9.]+\\(textwidth|linewidth)\])] *)
Definition includegraphics_pat : regex :=
  RSeq (word_i "\includegraphics")
       (RNegLook (seq_of [lit_i "["%char; word_i "width="; plus digit_dot;
                          lit_i bslash;
                          RAlt (word_i "textwidth") (word_i "linewidth");
                          lit_i "]"%char])).

Definition _regex_checks : list (regex * pystr) :=
  [(s_pat (lit_i dquote),
    py "uses double-quotes; use two single-quotes instead");
   (s_pat includegraphics_pat,
    py "bad includegraphics width; use a multiplier (e.g. width=0.9\textwidth) or HTML layout can break");
   (s_pat (word_i "..."),
    py "use \ldots rather than three periods");
   (s_pat (seq_of [word_i "floating"; RStar dash_or_space; word_i "point"]),
    "use "%string ++ [dquote] ++ "real"%string ++ [dquote] ++ " rather than "%string ++
    [dquote] ++ "floating-point"%string ++ [dquote]);
   (s_pat (RSeq (word_i "\times") RBound),
    py "use \cdot instead of \times for multiplication")].

(** The messages of lines 223 to 225: a check's message when
    [any(map(search, lines))]. *)
Definition line_checks (lines : list pystr) : list pystr :=
  map snd (filter (fun '(p, _) => existsb (search p) lines) _regex_checks).

(** The body of the loop of [_check_statement] for one statement file, from
    the call of [_parse_for_tex_errors] on. *)
Definition check_statement_file (problem filename : pystr)
    (spelling_dictionary : option (list pystr)) (plastex_loaded : bool)
    (parse : parse_outcome) (lines : list pystr) : PY unit :=
  parse_for_tex_errors problem filename spelling_dictionary plastex_loaded parse ;;;
  mapM_ (warning filename) (line_checks lines).

(** ** [_check_metadata_recursive] *)

(** Values loaded by [yaml.safe_load]; mappings have string keys, without
    duplicates, in file order. *)
Inductive yaml : Type :=
| YNone
| YBool (b : bool)
| YInt (z : nat)
| YStr (s : pystr)
| YList (items : list yaml)
| YDict (entries : list (pystr * yaml)).

Definition _WARN_ABOUT_SETTINGS : list pystr :=
  map list_ascii_of_string
    ["validation"; "type"; "limits/memory"; "limits/output";
     "limits/compilation_time"; "limits/validation_time";
     "limits/validation_memory"; "limits/validation_output"]%string.

Fixpoint is_prefix (p s : pystr) : bool :=
  match p, s with
  | [], _ => true
  | a :: p', b :: s' => ascii_eqb a b && is_prefix p' s'
  | _, _ => false
  end.

(** [k in s] for two strings: substring test. *)
Fixpoint is_substring (k s : pystr) : bool :=
  is_prefix k s || match s with [] => false | _ :: s' => is_substring k s' end.

Definition dict_lookup (k : pystr) (entries : list (pystr * yaml)) : option yaml :=
  match find (fun '(k', _) => str_eqb k' k) entries with
  | Some (_, v) => Some v
  | None => None
  end.

(** [k in default] for a string [k]. *)
Definition py_contains (default : yaml) (k : pystr) : PY bool :=
  match default with
  | YDict entries => ret (match dict_lookup k entries with Some _ => true | None => false end)
  | YList items => ret (existsb (fun v => match v with YStr s => str_eqb s k | _ => false end) items)
  | YStr s => ret (is_substring k s)
  | _ => raise (TypeError "argument of type is not iterable"%string)
  end.

(** [default[k]] for a string [k]. *)
Definition py_getitem (default : yaml) (k : pystr) : PY yaml :=
  match default with
  | YDict entries =>
      match dict_lookup k entries with
      | Some v => ret v
      | None => raise (KeyError k)
      end
  | YList _ => raise (TypeError "list indices must be integers or slices, not str"%string)
  | YStr _ => raise (TypeError "string indices must be integers"%string)
  | _ => raise (TypeError "object is not subscriptable"%string)
  end.

Definition full_key_of (path k : pystr) : pystr :=
  path ++ match path with [] => [] | _ => py "/" end ++ k.

(** The head of the loop body (lines 185 to 190); [Some k] when the loop
    goes on to [data[k]]. *)
Definition md_key_step (problem_yaml path : pystr) (kv : yaml) (default : yaml)
    : PY (option (pystr * pystr)) :=
  match kv with
  | YStr k =>
      let full_key := full_key_of path k in
      (if str_in full_key _WARN_ABOUT_SETTINGS
       then warning problem_yaml ("specifying unusual metadata value "%string ++ full_key)
       else ret tt) ;;;
      present <- py_contains default k ;;
      if present then ret (Some (k, full_key))
      else error problem_yaml ("option "%string ++ full_key ++ " is not in default"%string) ;;;
           ret None
  | _ => raise (TypeError "can only concatenate str to str"%string)
  end.

(** The iteration [for k in data] over a list or a string. *)
Definition py_iter_items (data : yaml) : PY (list yaml) :=
  match data with
  | YList items => ret items
  | YStr s => ret (map (fun c => YStr [c]) s)
  | YDict entries => ret (map (fun '(k, _) => YStr k) entries)
  | _ => raise (TypeError "object is not iterable"%string)
  end.

Fixpoint check_metadata_recursive (problem : pystr) (data default : yaml) (path : pystr)
    {struct data} : PY unit :=
  let problem_yaml := problem ++ "/problem.yaml"%string in
  match data with
  | YNone => error problem_yaml "there is no metadata"%string
  | YDict entries =>
      (fix go (es : list (pystr * yaml)) : PY unit :=
         match es with
         | [] => ret tt
         | (k, v) :: es' =>
             r <- md_key_step problem_yaml path (YStr k) default ;;
             match r with
             | None => go es'
             | Some (_, full_key) =>
                 match v with
                 | YDict _ =>
                     d <- py_getitem default k ;;
                     check_metadata_recursive problem v d full_key ;;; go es'
                 | _ => go es'
                 end
             end
         end) entries
  | _ =>
      (* a list or a string: [data[k]] with a string [k] raises *)
      items <- py_iter_items data ;;
      mapM_ (fun kv =>
          r <- md_key_step problem_yaml path kv default ;;
          match r with
          | None => ret tt
          | Some (k, _) => py_getitem data k ;;; ret tt
          end) items
  end.

(** ** The spelling dictionary store [_SPELLING_DICTIONARIES] *)

(** The dict maps a language to a set object; the set objects live in a
    heap, addressed by their position, so that the set bound to
    [spelling_dictionary] in [_check_statement] is the one in the dict. *)
Definition dict_store := list (pystr * nat).
Definition set_heap := list (list pystr).

Fixpoint store_get (language : pystr) (st : dict_store) : option nat :=
  match st with
  | [] => None
  | (l, loc) :: st' => if str_eqb l language then Some loc else store_get language st'
  end.

Definition heap_get (h : set_heap) (loc : nat) : list pystr := nth loc h [].

Fixpoint heap_set (h : set_heap) (loc : nat) (v : list pystr) : set_heap :=
  match h, loc with
  | [], _ => []
  | _ :: h', 0 => v :: h'
  | x :: h', S loc' => x :: heap_set h' loc' v
  end.

Definition strip_left (s : pystr) : pystr :=
  (fix go s := match s with c :: s' => if is_space c then go s' else s | [] => [] end) s.

(** [str.strip()]. *)
Definition strip (s : pystr) : pystr := rev (strip_left (rev (strip_left s))).

(** One directory below the dictionary root: its base name and its files,
    each given by its lines. *)
Definition dict_dir := (pystr * list (list pystr))%type.

(** The body of the loop of [load_spelling_dictionaries] for one
    directory. *)
Definition load_dir (st : dict_store * set_heap) (d : dict_dir) : dict_store * set_heap :=
  let '(store, heap) := st in
  let '(language, files) := d in
  let '(store, heap) :=
    match store_get language store with
    | Some _ => (store, heap)
    | None => (store ++ [(language, length heap)], heap ++ [[]])
    end in
  match store_get language store with
  | Some loc =>
      (store, fold_left (fun h lines =>
                 heap_set h loc (set_union (heap_get h loc)
                                           (set_of (map (fun line => lower (strip line)) lines))))
               files heap)
  | None => (store, heap)
  end.

(** [load_spelling_dictionaries(root)] from the empty store, over the
    directories that [os.walk] yields below [root]. *)
Definition load_spelling_dictionaries (dirs : list dict_dir) : dict_store * set_heap :=
  fold_left load_dir dirs ([], []).

(** Lines 215 to 217 of [_check_statement]: the set passed on as
    [spelling_dictionary], after [spelling_dictionary |= global]. *)
Definition lookup_dictionary (language : pystr) (st : dict_store * set_heap)
    : option nat * (dict_store * set_heap) :=
  let '(store, heap) := st in
  match store_get language store with
  | None => (None, st)
  | Some loc =>
      let global := match store_get (py "global") store with
                    | Some g => heap_get heap g
                    | None => []
                    end in
      (Some loc, (store, heap_set heap loc (set_union (heap_get heap loc) global)))
  end.

(** * Auxiliary definitions for the properties *)

Section NodeInd.
Variable P : node -> Prop.
Hypothesis HText : forall s, P (Text s).
Hypothesis HElem : forall name cs, Forall P cs -> P (Elem name cs).

Fixpoint node_ind' (n : node) : P n :=
  match n with
  | Text s => HText s
  | Elem name cs =>
      HElem name cs
        ((fix go (cs : list node) : Forall P cs :=
            match cs with
            | [] => Forall_nil P
            | c :: cs' => Forall_cons c (node_ind' c) (go cs')
            end) cs)
  end.
End NodeInd.

(** The Text payloads of a tree, in document order. *)
Fixpoint texts (n : node) : list pystr :=
  match n with
  | Text s => [s]
  | Elem _ cs => (fix go (cs : list node) := match cs with
                                              | [] => []
                                              | c :: cs' => texts c ++ go cs'
                                              end) cs
  end.

(** The names of the non-Text nodes below a math node (all of them when the
    walk starts in math mode), in document order. *)
Fixpoint names_in_math (in_math : bool) (n : node) : list pystr :=
  match n with
  | Text _ => []
  | Elem name cs =>
      (if in_math then [name] else []) ++
      (fix go (cs : list node) := match cs with
                                  | [] => []
                                  | c :: cs' => names_in_math (in_math || str_eqb name (py "math")) c
                                                ++ go cs'
                                  end) cs
  end.

(** What [_dfs] does at a non-Text node before its children: the appended
    separator or name, and the context for the children. *)
Definition dfs_enter (in_math : bool) (name : pystr) (st : streams) : streams * bool :=
  let '(plain_text, math_text) := st in
  if in_math then ((plain_text, math_text ++ [name ++ sp]), true)
  else if str_eqb name (py "bgroup") then ((plain_text ++ [sp], math_text ++ [sp]), false)
  else if str_eqb name (py "math") then ((plain_text, math_text ++ [sp]), true)
  else ((plain_text, math_text), false).

(** A piece [_dfs] may append to [plain_text], and to [math_text]. *)
Definition plain_piece (n : node) (x : pystr) : Prop :=
  x = sp \/ exists s, In s (texts n) /\ x = lower s.

Definition math_piece (in_math : bool) (n : node) (x : pystr) : Prop :=
  x = sp \/ (exists s, In s (texts n) /\ x = lower s) \/
  (exists name, In name (names_in_math in_math n) /\ x = name ++ sp).

(** Patterns none of whose character tests accepts [%]. *)
Fixpoint pct_safe (r : regex) : bool :=
  match r with
  | REmpty | RBound | RBol => true
  | RCls f | RStar f => negb (f "%"%char)
  | RSeq a b | RAlt a b => pct_safe a && pct_safe b
  | RNegLook a => pct_safe a
  end.

(** What a successful match of a pattern covers. *)
Fixpoint sem (s : pystr) (r : regex) (i j : nat) : Prop :=
  match r with
  | REmpty => j = i
  | RCls f => j = S i /\ exists c, nth_error s i = Some c /\ f c = true
  | RSeq a b => exists mid, sem s a i mid /\ sem s b mid j
  | RAlt a b => sem s a i j \/ sem s b i j
  | RStar f => i <= j /\ forall p, i <= p < j -> exists c, nth_error s p = Some c /\ f c = true
  | RBound => j = i /\ boundary s i = true
  | RBol => j = i /\ i = 0
  | RNegLook _ => j = i
  end.

(** The shape of a token: non-empty, no whitespace, a word character at
    both ends. *)
Definition token_shaped (w : pystr) : Prop :=
  0 < length w /\
  (forall p c, nth_error w p = Some c -> is_space c = false) /\
  word_at w 0 = true /\ word_at w (length w - 1) = true.


Section YamlInd.
Variable P : yaml -> Prop.
Hypothesis HDict : forall es, Forall (fun kv => P (snd kv)) es -> P (YDict es).
Hypothesis HOther : forall y, (forall es, y <> YDict es) -> P y.

Fixpoint yaml_dict_ind (y : yaml) : P y :=
  match y with
  | YDict es =>
      HDict es
        ((fix go (es : list (pystr * yaml)) : Forall (fun kv => P (snd kv)) es :=
            match es with
            | [] => Forall_nil _
            | kv :: es' => Forall_cons kv (yaml_dict_ind (snd kv)) (go es')
            end) es)
  | YNone => HOther YNone (fun es H => ltac:(discriminate H))
  | YBool b => HOther (YBool b) (fun es H => ltac:(discriminate H))
  | YInt z => HOther (YInt z) (fun es H => ltac:(discriminate H))
  | YStr s => HOther (YStr s) (fun es H => ltac:(discriminate H))
  | YList items => HOther (YList items) (fun es H => ltac:(discriminate H))
  end.
End YamlInd.

(** The set [_SPELLING_DICTIONARIES.get('global', set())]. *)
Definition global_words (st : dict_store * set_heap) : list pystr :=
  match store_get (py "global") (fst st) with
  | Some g => heap_get (snd st) g
  | None => []
  end.

(** The lookups of lines 215 to 217 done by the statements checked after a
    given one, in the order of their languages. *)
Definition lookups (languages : list pystr) (st : dict_store * set_heap) : dict_store * set_heap :=
  fold_left (fun st language => snd (lookup_dictionary language st)) languages st.

(** The store gives the locations [0 .. n-1] in order, and the heap has one
    set per location. *)
Definition store_inv (st : dict_store * set_heap) : Prop :=
  map snd (fst st) = seq 0 (length (fst st)) /\ length (snd st) = length (fst st).


(** * Definitions for the rest of the script *)

(** ** Sorted sets of strings *)

Definition str_le (s t : pystr) : Prop := str_ltb t s = false.

Definition str_lt (s t : pystr) : Prop := str_ltb s t = true.

(** ** Names, titles and large images *)

(** [str(n)] for a non-negative integer. *)
Fixpoint digits_go (fuel : nat) (n : N) (acc : pystr) : pystr :=
  match fuel with
  | 0 => acc
  | S fuel' =>
      let acc' := ascii_of_N (48 + n mod 10) :: acc in
      if (n <? 10)%N then acc' else digits_go fuel' (n / 10)%N acc'
  end.

Definition str_of_N (n : N) : pystr := digits_go (S (N.size_nat n)) n [].

(** Where [_check_problem_name_uniqueness] gets the names used in Kattis:
    the Kattis database when [kattis.util.db] is loaded (one row per
    problem), else the lines of the cache file when one is given, else
    nowhere. [Unreadable e]: the database query or [open(cache_filename)]
    raises [e] (a cache file that does not exist, for instance). *)
Inductive kattis_source : Type :=
| FromDb (rows : list pystr)
| FromCache (lines : list pystr)
| NoSource
| Unreadable (e : exn).

(** [kattis_names] after line 104; lines 96 to 104 are outside any [try], so
    an exception of the reading escapes. *)
Definition kattis_names (src : kattis_source) : result (option (list pystr)) :=
  match src with
  | FromDb rows => Ok (Some (set_of rows))
  | FromCache lines => Ok (Some (set_of (map strip lines)))
  | NoSource => Ok None
  | Unreadable e => Raise e
  end.

(** [a & b] for sets. *)
Definition set_inter (a b : list pystr) : list pystr := filter (fun w => str_in w b) a.

Definition msg_names_unchecked : pystr :=
  py "could not check whether problem names are already used in Kattis".

Definition msg_names_used (non_unique : list pystr) : pystr :=
  "some problems use names already in Kattis: "%string ++ repr_list non_unique.

Definition _check_problem_name_uniqueness (problems : list pystr) (src : kattis_source)
    : PY unit :=
  match kattis_names src with
  | Raise e => raise e
  | Ok None | Ok (Some []) => error (py "_general_") msg_names_unchecked
  | Ok (Some names) =>
      let non_unique := sorted (set_inter (set_of problems) names) in
      match non_unique with
      | [] => ret tt
      | _ => error (py "_general_") (msg_names_used non_unique)
      end
  end.

(** [[a-zA-Z0-9]] *)
Definition is_ascii_alnum (c : ascii) : bool := is_alpha c || is_digit c.

(** [re.sub('[^a-zA-Z0-9]', '', title).lower()] *)
Definition short_title (title : pystr) : pystr := lower (filter is_ascii_alnum title).

Definition msg_name_title (name title : pystr) : pystr :=
  "use matching directory name and title: "%string ++ name ++ " "%string ++
  [dquote] ++ title ++ [dquote].

Definition _check_problem_name_title (name title : pystr) : PY unit :=
  if negb (str_eqb name (short_title title))
  then warning name (msg_name_title name title)
  else ret tt.

(** [s.endswith(suf)] *)
Definition is_suffix (suf s : pystr) : bool := is_prefix (rev suf) (rev s).

Definition image_extensions : list pystr :=
  map py [".jpg"%string; ".jpeg"%string; ".png"%string; ".pdf"%string; ".svg"%string].

Definition is_image (filename : pystr) : bool :=
  existsb (fun ext => is_suffix ext filename) image_extensions.

Definition msg_large_image (size : N) : pystr :=
  "image is large ("%string ++ str_of_N (size / 1024)%N ++
  " kB) -- try to keep images under 200kB"%string.

(** [_check_large_images(problem)], on the entries that the glob of line 343
    yields, each with its size [os.stat(filename).st_size]. *)
Definition _check_large_images (files : list (pystr * N)) : PY unit :=
  mapM_ (fun '(filename, size) =>
      if is_image filename then
        if (1024 * 200 <? size)%N then warning filename (msg_large_image size) else ret tt
      else ret tt) files.

Definition is_lower_digit (c : ascii) : bool :=
  let n := nat_of_ascii c in ((97 <=? n) && (n <=? 122)) || is_digit c.

Definition large_image_log (l : errors_log) (x : pystr * N) : errors_log :=
  let '(filename, size) := x in
  if is_image filename && (204800 <? size)%N
  then log_append l (VStr filename) (VStr (msg_large_image size)) else l.

(** ** [_check_submissions] *)

(** [fast_pattern = re.compile(r'\bC(\+\+)?\b')] *)
Definition fast_pattern : regex :=
  seq_of [RBound; lit "C"%char; opt (RSeq (lit "+"%char) (lit "+"%char)); RBound].

Definition msg_no_slow (languages : pystr) : pystr :=
  "there are no "%string ++ [dquote] ++ "slow"%string ++ [dquote] ++
  " accepted submissions (only: "%string ++ languages ++ ")"%string.

(** The body of the inner loop of lines 353 to 358, for one submission of
    verdict [sub_type] in language [lang]: the state is
    [(languages_in_accepted, has_wa, has_tle, num_accepted)]. *)
Definition count_submission (sub_type : pystr) (acc : list pystr * bool * bool * nat)
    (lang : pystr) : list pystr * bool * bool * nat :=
  let '(languages_in_accepted, has_wa, has_tle, num_accepted) := acc in
  (if str_eqb sub_type (py "AC")
   then set_add lang languages_in_accepted else languages_in_accepted,
   has_wa || str_eqb sub_type (py "WA"),
   has_tle || str_eqb sub_type (py "TLE"),
   num_accepted + (if str_eqb sub_type (py "AC") then 1 else 0)).

(** Lines 350 to 358. *)
Definition count_submissions (submissions : list (pystr * list pystr))
    : list pystr * bool * bool * nat :=
  fold_left (fun acc '(sub_type, subs) => fold_left (count_submission sub_type) subs acc)
    submissions ([], false, false, 0).

(** [_check_submissions(problem)]. [submissions] is
    [problem.submissions._submissions] in its iteration order: each verdict
    with the language names [s.language.name] of its submissions.
    [set_order] is the iteration order of the Python set
    [languages_in_accepted] (it depends on string hashing), applied to the
    set's elements in insertion order. *)
Definition _check_submissions (set_order : list pystr -> list pystr) (shortname : pystr)
    (submissions : list (pystr * list pystr)) : PY unit :=
  let '(languages_in_accepted, has_wa, has_tle, num_accepted) :=
    count_submissions submissions in
  (if negb has_wa then warning shortname (py "has no WA submissions") else ret tt) ;;;
  (if negb has_tle then warning shortname (py "has no TLE submissions") else ret tt) ;;;
  (if Nat.eqb num_accepted 1
   then warning shortname (py "has only one AC submission") else ret tt) ;;;
  let has_slow :=
    existsb (fun lang => negb (re_match fast_pattern lang)) languages_in_accepted in
  if negb has_slow
  then warning shortname (msg_no_slow (join (py ", ") (set_order languages_in_accepted)))
  else ret tt.

(** The submissions with a given verdict, by language name. *)
Definition with_verdict (v : pystr) (submissions : list (pystr * list pystr)) : list pystr :=
  concat (map snd (filter (fun '(t, _) => str_eqb t v) submissions)).

(** ** [_check_problem] and [check_problems] *)

(** [try: c except: h] (a bare [except] catches every exception). *)
Definition try_except {A} (c : PY A) (h : exn -> PY A) : PY A :=
  fun l => match c l with
           | (Ok a, l') => (Ok a, l')
           | (Raise e, l') => h e l'
           end.

(** [d[k] = v] on a dict with string keys. *)
Fixpoint dict_set (k : pystr) (v : yaml) (d : list (pystr * yaml)) : list (pystr * yaml) :=
  match d with
  | [] => [(k, v)]
  | (k', v') :: d' => if str_eqb k' k then (k', v) :: d' else (k', v') :: dict_set k v d'
  end.

(** [d[k]] on the dict [metadata]. *)
Definition dict_getitem (d : list (pystr * yaml)) (k : pystr) : PY yaml :=
  match dict_lookup k d with
  | Some v => ret v
  | None => raise (KeyError k)
  end.

(** Values usable as dict keys: lists and dicts are unhashable. *)
Definition hashable (v : yaml) : bool :=
  match v with YList _ | YDict _ => false | _ => true end.

(** [==] on hashable values; [True == 1] and [False == 0]. *)
Definition scalar_eqb (a b : yaml) : bool :=
  match a, b with
  | YNone, YNone => true
  | YBool x, YBool y => Bool.eqb x y
  | YInt x, YInt y => Nat.eqb x y
  | YBool x, YInt y | YInt y, YBool x => Nat.eqb y (if x then 1 else 0)
  | YStr x, YStr y => str_eqb x y
  | _, _ => false
  end.

(** [counter[v] += 1] on a [collections.Counter], in insertion order; the key
    stays the one inserted first. *)
Fixpoint counter_add (v : yaml) (c : list (yaml * nat)) : list (yaml * nat) :=
  match c with
  | [] => [(v, 1)]
  | (k, n) :: c' => if scalar_eqb k v then (k, S n) :: c' else (k, n) :: counter_add v c'
  end.

(** [collections.Counter(metadata[p][k] for p in problems if p not in errors)],
    element by element, from the counter [acc]. *)
Fixpoint count_field (metadata : list (pystr * yaml)) (errors : list pystr) (k : pystr)
    (problems : list pystr) (acc : list (yaml * nat)) : PY (list (yaml * nat)) :=
  match problems with
  | [] => ret acc
  | p :: problems' =>
      if str_in p errors then count_field metadata errors k problems' acc
      else
        md <- dict_getitem metadata p ;;
        v <- py_getitem md k ;;
        if hashable v then count_field metadata errors k problems' (counter_add v acc)
        else raise (TypeError "unhashable type"%string)
  end.

(** [repr] of a hashable value. *)
Definition repr_scalar (v : yaml) : pystr :=
  match v with
  | YNone => py "None"
  | YBool true => py "True"
  | YBool false => py "False"
  | YInt n => str_of_N (N.of_nat n)
  | YStr s => repr_str s
  | YList _ | YDict _ => []   (* not hashable: never a key *)
  end.

(** [f'{values}'] for [values = dict(counter)]. *)
Definition repr_counter (values : list (yaml * nat)) : pystr :=
  "{"%string ++
  join (py ", ") (map (fun '(v, n) => repr_scalar v ++ ": "%string ++ str_of_N (N.of_nat n))
                    values) ++ "}"%string.

Definition msg_multiple_values (k : pystr) (values : list (yaml * nat)) : pystr :=
  "multiple values for "%string ++ k ++ ": "%string ++ repr_counter values.

Definition msg_field_unchecked (k : pystr) : pystr :=
  "could not check for consistency of metadata field "%string ++ k.

(** The body of the loop of lines 407 to 413, for the field [k]. *)
Definition check_field (metadata : list (pystr * yaml)) (errors problems : list pystr)
    (k : pystr) : PY unit :=
  try_except
    (values <- count_field metadata errors k problems [] ;;
     if 1 <? length values
     then warning (py "_general_") (msg_multiple_values k values)
     else ret tt)
    (fun _ => warning (py "_general_") (msg_field_unchecked k)).

Definition msg_problem_exception (traceback : pystr) : pystr :=
  "an exception occurred when checking this problem: "%string ++ traceback.

(** The loop of lines 402 to 406, from the dict [metadata] and the list
    [errors] built so far. *)
Fixpoint check_each (check_problem : pystr -> PY yaml) (format_exc : exn -> pystr)
    (problems : list pystr) (metadata : list (pystr * yaml)) (errors : list pystr)
    : PY (list (pystr * yaml) * list pystr) :=
  match problems with
  | [] => ret (metadata, errors)
  | p :: problems' =>
      r <- try_except
             (md <- check_problem p ;; ret (dict_set p md metadata, errors))
             (fun e => let errors := errors ++ [p] in
                       error p (msg_problem_exception (format_exc e)) ;;;
                       ret (metadata, errors)) ;;
      check_each check_problem format_exc problems' (fst r) (snd r)
  end.

(** [check_problems(problems, problem_name_cache)]. [check_problem] is
    [_check_problem] (problemtools, the statement and the images), which may
    raise; [format_exc e] is the text of [traceback.format_exc()] for [e]. *)
Definition check_problems (check_problem : pystr -> PY yaml) (format_exc : exn -> pystr)
    (problems : list pystr) (src : kattis_source) : PY unit :=
  _check_problem_name_uniqueness problems src ;;;
  r <- check_each check_problem format_exc problems [] [] ;;
  mapM_ (check_field (fst r) (snd r) problems)
    (map py ["source"%string; "source_url"%string; "license"%string]).

Definition field_of (metadata : list (pystr * yaml)) (p k : pystr) : option yaml :=
  match dict_lookup p metadata with
  | Some (YDict es) => dict_lookup k es
  | _ => None
  end.

(** The counter after the given values, from [acc]. *)
Definition counter_of (vs : list yaml) (acc : list (yaml * nat)) : list (yaml * nat) :=
  fold_left (fun c v => counter_add v c) vs acc.

Definition field_values (metadata : list (pystr * yaml)) (errors : list pystr) (k : pystr)
    (problems : list pystr) : list yaml :=
  flat_map (fun p => if str_in p errors then []
                     else match field_of metadata p k with Some v => [v] | None => [] end)
    problems.

Fixpoint pw_neq (ks : list yaml) : Prop :=
  match ks with
  | [] => True
  | k :: ks' => Forall (fun k' => scalar_eqb k k' = false) ks' /\ pw_neq ks'
  end.

Definition counter_inv (ks seen : list yaml) : Prop :=
  (forall k, In k ks -> In k seen) /\
  (forall v, In v seen -> exists k, In k ks /\ scalar_eqb k v = true) /\
  pw_neq ks.

Definition raised {A} (r : result A) : bool :=
  match r with Raise _ => true | Ok _ => false end.

(** [_check_problem(problem)]; [problemtools_loaded] is
    ['problemtools.verifyproblem' in sys.modules]. *)
Definition _check_problem (problemtools_loaded : bool)
    (check_metadata : pystr -> PY yaml)
    (check_submissions check_statement check_large_images : pystr -> PY unit)
    (problem : pystr) : PY yaml :=
  if negb problemtools_loaded then
    error problem (py "could not load problemtools") ;;; ret (YDict [])
  else
    full_metadata <- check_metadata problem ;;
    check_submissions problem ;;;
    check_statement problem ;;;
    check_large_images problem ;;;
    ret full_metadata.

Definition log_not_loaded (ps : list pystr) (l : errors_log) : errors_log :=
  fold_left (fun l p => log_append l (VStr p) (VStr (py "could not load problemtools"))) ps l.

(** ** The reports of [_parse_for_tex_errors] *)

Definition starts_number (w : pystr) : bool :=
  match w with [] => false | c :: _ => digit_dot_comma c end.

(** ** The language of a statement file *)

Definition newline : ascii := ascii_of_nat 10.

Definition is_lower_az (c : ascii) : bool :=
  (97 <=? nat_of_ascii c) && (nat_of_ascii c <=? 122).

(** [.]: any character but a newline. *)
Definition not_nl (c : ascii) : bool := negb (ascii_eqb c newline).

(** [$]: the end of the string, or before a newline that ends it. *)
Definition dollar_rest (r : pystr) : bool :=
  match r with
  | [] => true
  | [c] => ascii_eqb c newline
  | _ => false
  end.

(** [.tex$] on the rest of the input. *)
Definition tex_end (r : pystr) : bool :=
  match r with
  | c :: rest => not_nl c && is_prefix (py "tex") rest && dollar_rest (skipn 3 rest)
  | [] => false
  end.

(** [problem(?:\.([a-z][a-z]))?.tex$] at the start of [r]; the optional
    group is greedy, so it is tried first. [Some (Some g)]: a match with the
    group [g]; [Some None]: a match without the group. *)
Definition attempt_rest (r : pystr) : option (option pystr) :=
  if is_prefix (py "problem") r then
    let r7 := skipn 7 r in
    match r7 with
    | d :: a :: b :: rest =>
        if ascii_eqb d "."%char && is_lower_az a && is_lower_az b && tex_end rest
        then Some (Some [a; b])
        else if tex_end r7 then Some None else None
    | _ => if tex_end r7 then Some None else None
    end
  else None.

(** [.*] is greedy and stops at a newline: the positions where ["problem"]
    may start are tried from the last one reachable down to 0. *)
Fixpoint try_down (s : pystr) (i : nat) : option (option pystr) :=
  match attempt_rest (skipn i s) with
  | Some g => Some g
  | None => match i with 0 => None | S i' => try_down s i' end
  end.

Fixpoint line_len (s : pystr) : nat :=
  match s with
  | [] => 0
  | c :: s' => if ascii_eqb c newline then 0 else S (line_len s')
  end.

(** [m = re.match(r'.*problem(?:\.([a-z][a-z]))?.tex$', filename)] *)
Definition statement_match (filename : pystr) : option (option pystr) :=
  try_down filename (line_len filename).

(** [None] for [continue]; otherwise [m.group(1) or 'en']. *)
Definition statement_language (filename : pystr) : option pystr :=
  match statement_match filename with
  | None => None
  | Some (Some g) => Some g
  | Some None => Some (py "en")
  end.

(** ** [find_problem_directories] *)

(** A directory as [os.walk] sees it (symbolic links followed): its file
    names and its subdirectories, by name, in listing order. *)
Inductive dir_tree : Type :=
| Dir (files : list pystr) (subdirs : list (pystr * dir_tree)).

Definition slash : ascii := "/"%char.

Fixpoint take_while (f : ascii -> bool) (s : pystr) : pystr :=
  match s with
  | [] => []
  | c :: s' => if f c then c :: take_while f s' else []
  end.

(** [os.path.basename(p)]: [p[p.rfind('/') + 1:]]. *)
Definition basename (p : pystr) : pystr :=
  rev (take_while (fun c => negb (ascii_eqb c slash)) (rev p)).

(** [os.path.join(a, b)] for two components. *)
Definition path_join (a b : pystr) : pystr :=
  match b with
  | c :: _ => if ascii_eqb c slash then b
              else match rev a with
                   | [] => b
                   | x :: _ => if ascii_eqb x slash then a ++ b else a ++ [slash] ++ b
                   end
  | [] => match rev a with
          | [] => b
          | x :: _ => if ascii_eqb x slash then a ++ b else a ++ [slash] ++ b
          end
  end.

(** The loop of [find_problem_directories] over [os.walk(wd)], from the
    directory [d] at path [root]: its name is collected when it holds
    [problem.yaml]; below any [root] other than [wd], [del dirs[:]] keeps
    the walk from descending. *)
Fixpoint walk_find (wd root : pystr) (d : dir_tree) (acc : list pystr) : list pystr :=
  match d with
  | Dir files subdirs =>
      let acc := if str_in (py "problem.yaml") files then acc ++ [basename root] else acc in
      if negb (str_eqb root wd) then acc
      else fold_left (fun acc '(name, sub) => walk_find wd (path_join root name) sub acc)
             subdirs acc
  end.

Definition find_problem_directories (wd : pystr) (d : dir_tree) : list pystr :=
  sorted (walk_find wd wd d []).

Definition has_problem_yaml (d : dir_tree) : bool :=
  match d with Dir files _ => str_in (py "problem.yaml") files end.

Definition plain_name (name : pystr) : Prop := name <> [] /\ ~ In slash name.

(** ** [_check_metadata_recursive] on conforming metadata *)

(** Every key the checker meets is in the schema, no full key is one of
    [_WARN_ABOUT_SETTINGS], and the schema is a mapping wherever the data
    is. *)
Fixpoint md_clean (data default : yaml) (path : pystr) : Prop :=
  match data, default with
  | YDict es, YDict des =>
      (fix go (es : list (pystr * yaml)) : Prop :=
         match es with
         | [] => True
         | (k, v) :: es' =>
             (str_in (full_key_of path k) _WARN_ABOUT_SETTINGS = false /\
              exists d, dict_lookup k des = Some d /\
                match v with YDict _ => md_clean v d (full_key_of path k) | _ => True end)
             /\ go es'
         end) es
  | _, _ => False
  end.

(** ** [display_warnings_errors] *)

(** [k.split('/')[0]] *)
Definition prefix_of (k : pystr) : pystr := take_while (fun c => negb (ascii_eqb c slash)) k.

Definition header_line (prefix : pystr) : pystr := [newline] ++ py "* " ++ prefix.

Definition item_line (fmt : pyval -> pystr) (k : pystr) (e : pyval) : pystr :=
  py "    * [ ] " ++ k ++ py ": " ++ fmt e.

(** The string keys of [_ERRORS], in insertion order. *)
Definition keys_of (l : errors_log) : list pystr :=
  flat_map (fun '(k, _) => match k with VStr s => [s] | VExn _ => [] end) l.

(** The loop of lines 133 to 138 over the sorted keys, from [last_prefix];
    [fmt e] is the text of [{e}]. *)
Fixpoint report_go (fmt : pyval -> pystr) (l : errors_log) (last_prefix : option pystr)
    (ks : list pystr) : list pystr :=
  match ks with
  | [] => []
  | k :: ks' =>
      let prefix := prefix_of k in
      (if match last_prefix with Some p => str_eqb p prefix | None => false end
       then [] else [header_line prefix]) ++
      map (item_line fmt k) (messages_for k l) ++
      report_go fmt l (Some prefix) ks'
  end.

(** The lines written by [display_warnings_errors] after the first one. *)
Definition display_lines (fmt : pyval -> pystr) (l : errors_log) : list pystr :=
  report_go fmt l None (sorted (set_of (keys_of l))).

Definition is_header (x : pystr) : bool :=
  match x with c :: _ => ascii_eqb c newline | [] => false end.

Definition string_log (sl : list (pystr * list pyval)) : errors_log :=
  map (fun '(k, ms) => (VStr k, ms)) sl.

(** ** The loop of [_check_statement] *)

(** One file yielded by the [glob] of line 211: its name, what [tex.parse()]
    does on it, and its lines. *)
Definition statement_file := (pystr * parse_outcome * list pystr)%type.

(** The loop of lines 211 to 225, over the files in [glob] order, threading
    [_SPELLING_DICTIONARIES]. *)
Fixpoint check_statement_go (problem : pystr) (plastex_loaded : bool)
    (files : list statement_file) (st : dict_store * set_heap) : PY (dict_store * set_heap) :=
  match files with
  | [] => ret st
  | (filename, parse, lines) :: files' =>
      match statement_language filename with
      | None => check_statement_go problem plastex_loaded files' st
      | Some language =>
          let '(d, st1) := lookup_dictionary language st in
          check_statement_file problem filename
            (option_map (heap_get (snd st1)) d) plastex_loaded parse lines ;;;
          check_statement_go problem plastex_loaded files' st1
      end
  end.

Definition _check_statement (problem : pystr) (plastex_loaded : bool)
    (files : list statement_file) (st : dict_store * set_heap) : PY (dict_store * set_heap) :=
  check_statement_go problem plastex_loaded files st.

(** ** Concrete instances *)

(** No string occurs twice, tested with [str_in]. *)
Fixpoint str_nodupb (l : list pystr) : bool :=
  match l with
  | [] => true
  | w :: l' => negb (str_in w l') && str_nodupb l'
  end.

(** * Properties *)

(** ** Strings *)

Lemma str_eqb_refl : forall s, str_eqb s s = true.
Proof.
  induction s as [|c s IH]; simpl; [reflexivity|].
  unfold ascii_eqb. rewrite Ascii.eqb_refl. exact IH.
Qed.

Lemma str_eqb_eq : forall s t, str_eqb s t = true <-> s = t.
Proof.
  induction s as [|a s IH]; destruct t as [|b t]; simpl; split; intro H;
    try discriminate; try reflexivity.
  - apply andb_prop in H as [H1 H2]. unfold ascii_eqb in H1.
    apply Ascii.eqb_eq in H1. apply IH in H2. subst. reflexivity.
  - injection H as <- <-. rewrite str_eqb_refl. unfold ascii_eqb.
    rewrite Ascii.eqb_refl. reflexivity.
Qed.

(** ** Detectors on the examples of the specification *)

(** C5: with the dictionary {the, cat, sat}, the plain text
    "the cat sat on 42 mats" gives exactly the findings
    [misspelled words: ['mats', 'on']] and [missing math mode: ['42']]. *)
Theorem detect_plain_example :
  detect (Some (map py ["the"; "cat"; "sat"]%string)) (py "the cat sat on 42 mats") []
  = [py "misspelled words: ['mats', 'on']"; py "missing math mode: ['42']"].
Proof. vm_compute. reflexivity. Qed.

(** C6: the math text "there are 12,34 items and 20000 total" gives one
    [incorrect math] finding listing 12,34 and 20000, sorted. *)
Theorem detect_math_example :
  incorrect_math (check_math_text (py "there are 12,34 items and 20000 total") no_findings)
    = [py "12,34"; py "20000"] /\
  detect None [] (py "there are 12,34 items and 20000 total")
  = [py "incorrect math: ['12,34', '20000'] (use `\,` (backslash comma) to separate thousands groups)"].
Proof. split; vm_compute; reflexivity. Qed.

(** ** A failing parse *)

(** C1 (the handler of a failing parse): [warning] takes two arguments but
    is called with three, so the handler itself raises [TypeError]; nothing
    is logged and the line checks of the file do not run. *)
Theorem parse_failure_raises_type_error :
  forall problem filename spelling_dictionary e lines (l : errors_log),
    parse_for_tex_errors problem filename spelling_dictionary true (ParseRaises e) l
      = (Raise (TypeError (py "<lambda>() takes 2 positional arguments")), l) /\
    check_statement_file problem filename spelling_dictionary true (ParseRaises e) lines l
      = (Raise (TypeError (py "<lambda>() takes 2 positional arguments")), l).
Proof. intros. split; reflexivity. Qed.

(** ** Declared values equal to the default *)

(** C2 (what the checker does with a declared leaf equal to its default):
    nothing is logged; there is no comparison of values at all. *)
Theorem default_value_not_reported :
  forall problem k v (l : errors_log),
    (forall es, v <> YDict es) ->
    str_in k _WARN_ABOUT_SETTINGS = false ->
    check_metadata_recursive problem (YDict [(k, v)]) (YDict [(k, v)]) [] l = (Ok tt, l).
Proof.
  intros problem k v l Hv Hw.
  pose proof (str_eqb_refl k) as Hk.
  cbn -[str_in str_eqb _WARN_ABOUT_SETTINGS]. rewrite Hw.
  unfold bind, ret, dict_lookup. cbn -[str_eqb]. rewrite Hk.
  destruct v; try reflexivity.
  exfalso. exact (Hv entries eq_refl).
Qed.

Lemma default_value_not_reported_witness :
  check_metadata_recursive (py "p")
    (YDict [(py "time_multiplier", YInt 5)]) (YDict [(py "time_multiplier", YInt 5)]) [] []
  = (Ok tt, []).
Proof.
  apply (default_value_not_reported (py "p") (py "time_multiplier") (YInt 5) []).
  - intros es H; discriminate H.
  - vm_compute. reflexivity.
Defined.

(** ** The tree walk *)

Lemma dfs_elem : forall b name cs st,
  dfs b (Elem name cs) st =
  let '(st', b') := dfs_enter b name st in fold_left (fun st c => dfs b' c st) cs st'.
Proof.
  intros b name cs [p0 m0].
  assert (Hgo : forall b' cs st,
    (fix go (cs : list node) (st : streams) : streams :=
       match cs with [] => st | c :: cs' => go cs' (dfs b' c st) end) cs st
    = fold_left (fun st c => dfs b' c st) cs st).
  { intros b' cs'. induction cs' as [|c cs' IH]; intros st; simpl; [reflexivity|]. apply IH. }
  cbn [dfs]. unfold dfs_enter, py.
  destruct b; [apply Hgo|].
  destruct (str_eqb name _); [apply Hgo|].
  destruct (str_eqb name _); apply Hgo.
Qed.

Lemma texts_elem : forall name cs s,
  In s (texts (Elem name cs)) <-> exists c, In c cs /\ In s (texts c).
Proof.
  intros name cs s. simpl. induction cs as [|c cs IH]; simpl.
  - split; [intros []|intros (c & [] & _)].
  - rewrite in_app_iff, IH. split.
    + intros [H | (c' & Hc' & H)]; [exists c; auto | exists c'; auto].
    + intros (c' & [<- | Hc'] & H); [left; exact H | right; exists c'; auto].
Qed.

Lemma names_in_math_elem : forall b name cs x,
  In x (names_in_math b (Elem name cs)) <->
  (b = true /\ x = name) \/
  exists c, In c cs /\ In x (names_in_math (b || str_eqb name (py "math")) c).
Proof.
  intros b name cs x. cbn [names_in_math]. rewrite in_app_iff.
  assert (Hgo : In x ((fix go (cs : list node) := match cs with
                                  | [] => []
                                  | c :: cs' => names_in_math (b || str_eqb name (py "math")) c
                                                ++ go cs'
                                  end) cs) <->
                exists c, In c cs /\ In x (names_in_math (b || str_eqb name (py "math")) c)).
  { induction cs as [|c cs IH]; simpl.
    - split; [intros []|intros (c & [] & _)].
    - rewrite in_app_iff, IH. split.
      + intros [H | (c' & Hc' & H)]; [exists c; auto | exists c'; auto].
      + intros (c' & [<- | Hc'] & H); [left; exact H | right; exists c'; auto]. }
  rewrite Hgo. destruct b; simpl.
  - split; (intros [[H | []] | H]; [left; auto | right; exact H]) || idtac.
    intros [[_ <-] | H]; [left; left; reflexivity | right; exact H].
  - split; [intros [[] | H]; right; exact H | intros [[H _] | H]; [discriminate | right; exact H]].
Qed.

Lemma dfs_enter_shape : forall b name p m,
  exists ep em,
    fst (dfs_enter b name (p, m)) = (p ++ ep, m ++ em) /\
    snd (dfs_enter b name (p, m)) = b || str_eqb name (py "math") /\
    Forall (fun x => x = sp) ep /\
    Forall (fun x => x = sp \/ (b = true /\ x = name ++ sp)) em.
Proof.
  intros b name p m. unfold dfs_enter. destruct b.
  - exists [], [name ++ sp]. rewrite app_nil_r. repeat split; auto.
  - destruct (str_eqb name (py "bgroup")) eqn:Eb.
    + apply str_eqb_eq in Eb. subst name.
      exists [sp], [sp]. repeat split; auto.
    + destruct (str_eqb name (py "math")) eqn:Em.
      * exists [], [sp]. rewrite app_nil_r. repeat split; auto.
      * exists [], []. rewrite !app_nil_r. repeat split; auto.
Qed.

Lemma dfs_children_pieces :
  forall (Pp : node -> pystr -> Prop) (Pm : bool -> node -> pystr -> Prop) cs,
  Forall (fun c => forall b p m, exists dp dm,
             dfs b c (p, m) = (p ++ dp, m ++ dm) /\
             Forall (Pp c) dp /\ Forall (Pm b c) dm) cs ->
  forall b p m, exists dp dm,
    fold_left (fun st c => dfs b c st) cs (p, m) = (p ++ dp, m ++ dm) /\
    Forall (fun x => exists c, In c cs /\ Pp c x) dp /\
    Forall (fun x => exists c, In c cs /\ Pm b c x) dm.
Proof.
  intros Pp Pm cs HIH. induction HIH as [|c cs Hc Hcs IH]; intros b p m.
  - exists [], []. rewrite !app_nil_r. repeat split; constructor.
  - destruct (Hc b p m) as (dp1 & dm1 & E1 & Hp1 & Hm1).
    simpl. rewrite E1.
    destruct (IH b (p ++ dp1) (m ++ dm1)) as (dp2 & dm2 & E2 & Hp2 & Hm2).
    rewrite E2, <- !app_assoc.
    exists (dp1 ++ dp2), (dm1 ++ dm2). split; [reflexivity|]. split; apply Forall_app; split.
    + eapply Forall_impl; [|exact Hp1]. intros x H. exists c. simpl. auto.
    + eapply Forall_impl; [|exact Hp2]. intros x (c' & Hin & H). exists c'. simpl. auto.
    + eapply Forall_impl; [|exact Hm1]. intros x H. exists c. simpl. auto.
    + eapply Forall_impl; [|exact Hm2]. intros x (c' & Hin & H). exists c'. simpl. auto.
Qed.

(** Every piece [_dfs] appends is a separator, a lowered Text payload, or,
    on [math_text] only, the name of a node below a math node. *)
Lemma dfs_pieces : forall n b p m,
  exists dp dm,
    dfs b n (p, m) = (p ++ dp, m ++ dm) /\
    Forall (plain_piece n) dp /\ Forall (math_piece b n) dm.
Proof.
  induction n as [s | name cs IH] using node_ind'; intros b p m.
  - destruct b; simpl.
    + exists [], [lower s]. rewrite app_nil_r. repeat split; [constructor|].
      constructor; [|constructor]. right. left. exists s. simpl. auto.
    + exists [lower s], []. rewrite app_nil_r. repeat split; [|constructor].
      constructor; [|constructor]. right. exists s. simpl. auto.
  - rewrite dfs_elem.
    destruct (dfs_enter_shape b name p m) as (ep & em & E1 & E2 & Hep & Hem).
    destruct (dfs_enter b name (p, m)) as [st' b'] eqn:E. cbn [fst snd] in E1, E2. subst st' b'.
    destruct (dfs_children_pieces plain_piece math_piece cs IH
                (b || str_eqb name (py "math")) (p ++ ep) (m ++ em))
      as (dp & dm & Ec & Hdp & Hdm).
    rewrite Ec, <- !app_assoc.
    exists (ep ++ dp), (em ++ dm). split; [reflexivity|]. split; apply Forall_app; split.
    + eapply Forall_impl; [|exact Hep]. intros x Hx. left. exact Hx.
    + eapply Forall_impl; [|exact Hdp]. intros x (c & Hc & [Hx | (s & Hs & Hx)]).
      * left. exact Hx.
      * right. exists s. split; [|exact Hx]. apply texts_elem. exists c. auto.
    + eapply Forall_impl; [|exact Hem]. intros x [Hx | [Hb Hx]].
      * left. exact Hx.
      * right. right. exists name. split; [|exact Hx].
        apply names_in_math_elem. left. auto.
    + eapply Forall_impl; [|exact Hdm].
      intros x (c & Hc & [Hx | [(s & Hs & Hx) | (nm & Hnm & Hx)]]).
      * left. exact Hx.
      * right. left. exists s. split; [|exact Hx]. apply texts_elem. exists c. auto.
      * right. right. exists nm. split; [|exact Hx].
        apply names_in_math_elem. right. exists c. auto.
Qed.

(** In math mode nothing reaches [plain_text] and every Text payload reaches
    [math_text]. *)
Lemma dfs_in_math : forall n p m,
  exists dm, dfs true n (p, m) = (p, m ++ dm) /\
             forall s, In s (texts n) -> In (lower s) dm.
Proof.
  induction n as [s | name cs IH] using node_ind'; intros p m.
  - exists [lower s]. split; [reflexivity|]. intros s' [<- | []]. left. reflexivity.
  - rewrite dfs_elem. cbn [dfs_enter].
    assert (Hc : forall cs, Forall (fun n => forall p m, exists dm,
                   dfs true n (p, m) = (p, m ++ dm) /\
                   forall s, In s (texts n) -> In (lower s) dm) cs ->
            forall p m, exists dm,
              fold_left (fun st c => dfs true c st) cs (p, m) = (p, m ++ dm) /\
              forall c s, In c cs -> In s (texts c) -> In (lower s) dm).
    { clear. intros cs H. induction H as [|c cs Hc Hcs IHc]; intros p m.
      - exists []. rewrite app_nil_r. split; [reflexivity|]. intros c s [].
      - destruct (Hc p m) as (dm1 & E1 & H1). simpl. rewrite E1.
        destruct (IHc p (m ++ dm1)) as (dm2 & E2 & H2). rewrite E2, <- app_assoc.
        exists (dm1 ++ dm2). split; [reflexivity|].
        intros c' s [<- | Hin] Hs; apply in_app_iff; [left | right]; eauto. }
    destruct (Hc cs IH p (m ++ [name ++ sp])) as (dm & E & H).
    rewrite E, <- app_assoc. exists ([name ++ sp] ++ dm). split; [reflexivity|].
    intros s Hs. apply texts_elem in Hs as (c & Hin & Hs).
    apply in_app_iff. right. eauto.
Qed.

Lemma fold_in_math : forall cs p m,
  exists dm, fold_left (fun st c => dfs true c st) cs (p, m) = (p, m ++ dm) /\
             forall c s, In c cs -> In s (texts c) -> In (lower s) dm.
Proof.
  induction cs as [|c cs IH]; intros p m.
  - exists []. rewrite app_nil_r. split; [reflexivity|]. intros c s [].
  - destruct (dfs_in_math c p m) as (dm1 & E1 & H1). simpl. rewrite E1.
    destruct (IH p (m ++ dm1)) as (dm2 & E2 & H2). rewrite E2, <- app_assoc.
    exists (dm1 ++ dm2). split; [reflexivity|].
    intros c' s [<- | Hin] Hs; apply in_app_iff; [left | right]; eauto.
Qed.

(** C3 (corrected): outside math mode no node name is appended; the plain
    stream holds only lowered Text payloads and single spaces, while the math
    stream may also hold, for each non-Text node strictly inside a math
    node, that node's name followed by a space. *)
Theorem classifier_names_only_inside_math : forall document,
  Forall (plain_piece document) (fst (dfs false document ([], []))) /\
  Forall (math_piece false document) (snd (dfs false document ([], []))).
Proof.
  intros document.
  destruct (dfs_pieces document false [] []) as (dp & dm & E & Hp & Hm).
  rewrite E. split; assumption.
Qed.

(** C3 (counterexample): in [$\times$] the name of the [times] node is
    appended to [math_text], although the tree has no Text node at all. *)
Lemma classifier_appends_name_in_math :
  let document := Elem (py "#document") [Elem (py "math") [Elem (py "times") []]] in
  texts document = [] /\
  classify document = ([], py " times ") /\
  ~ Forall (fun x => x = sp \/ exists s, In s (texts document) /\ x = lower s)
        (snd (dfs false document ([], []))).
Proof.
  intros document. split; [reflexivity|]. split; [vm_compute; reflexivity|].
  vm_compute. intros H. inversion H as [|x l H1 H2]; subst.
  inversion H2 as [|y l' H3 H4]; subst.
  destruct H3 as [H3 | (s & [] & _)]. discriminate H3.
Qed.

(** C4: the Text payloads of a subtree rooted at a math node all reach
    [math_text], lowered, and nothing of the subtree reaches [plain_text],
    whatever the context the walk reaches it in. *)
Theorem math_subtree_goes_to_math_text : forall in_math cs plain_text math_text,
  let '(plain_text', math_text') :=
    dfs in_math (Elem (py "math") cs) (plain_text, math_text) in
  plain_text' = plain_text /\
  exists dm, math_text' = math_text ++ dm /\
             forall s, In s (texts (Elem (py "math") cs)) -> In (lower s) dm.
Proof.
  intros in_math cs p m. destruct in_math.
  - destruct (dfs_in_math (Elem (py "math") cs) p m) as (dm & E & H).
    rewrite E. split; [reflexivity|]. exists dm. auto.
  - destruct (fold_in_math cs p (m ++ [sp])) as (dm & E & H).
    rewrite dfs_elem. cbn [dfs_enter].
    replace (str_eqb (py "math") (py "bgroup")) with false by reflexivity.
    rewrite str_eqb_refl. cbn beta iota.
    rewrite E. split; [reflexivity|]. exists ([sp] ++ dm).
    rewrite app_assoc. split; [reflexivity|].
    intros s Hs. apply in_app_iff. right.
    apply texts_elem in Hs as (c & Hc & Hs). eauto.
Qed.

(** ** The line checks *)

Lemma nth_error_cut : forall (l1 l2 : pystr) j,
  j < length l1 -> nth_error (l1 ++ l2) j = nth_error l1 j.
Proof. intros. apply nth_error_app1. exact H. Qed.

Lemma word_at_cut : forall l1 l2 j,
  j <= length l1 -> word_at (l1 ++ "%"%char :: l2) j = word_at l1 j.
Proof.
  intros l1 l2 j Hj. unfold word_at.
  destruct (Nat.eq_dec j (length l1)) as [-> | Hne].
  - rewrite nth_error_app2 by lia. rewrite Nat.sub_diag.
    replace (nth_error l1 (length l1)) with (@None ascii).
    + reflexivity.
    + symmetry. apply nth_error_None. lia.
  - rewrite nth_error_cut by lia. reflexivity.
Qed.

Lemma boundary_cut : forall l1 l2 i,
  i <= length l1 -> boundary (l1 ++ "%"%char :: l2) i = boundary l1 i.
Proof.
  intros l1 l2 i Hi. unfold boundary. rewrite word_at_cut by exact Hi.
  destruct i as [|j]; [reflexivity|]. rewrite word_at_cut by lia. reflexivity.
Qed.

Lemma star_go_cut : forall f l2 xs i k1 k2,
  f "%"%char = false ->
  (forall j, i <= j <= i + length xs -> k1 j = k2 j) ->
  star_go f (xs ++ "%"%char :: l2) i k1 = star_go f xs i k2.
Proof.
  intros f l2 xs. induction xs as [|c xs IH]; intros i k1 k2 Hf Hk; simpl.
  - rewrite Hf. apply Hk. lia.
  - destruct (f c); [|apply Hk; lia].
    rewrite (IH (S i) k1 k2 Hf) by (intros j Hj; apply Hk; simpl in Hj |- *; lia).
    destruct (star_go f xs (S i) k2); [reflexivity|]. apply Hk. lia.
Qed.

(** Matching a [%]-safe pattern from a position before a [%] never looks
    past the [%]. *)
Lemma m_cut : forall r l1 l2 i k1 k2,
  pct_safe r = true -> i <= length l1 ->
  (forall j, i <= j <= length l1 -> k1 j = k2 j) ->
  m r (l1 ++ "%"%char :: l2) i k1 = m r l1 i k2.
Proof.
  induction r as [| f | a IHa b IHb | a IHa b IHb | f | | | a IHa];
    intros l1 l2 i k1 k2 Hr Hi Hk; simpl in Hr |- *.
  - apply Hk. lia.
  - destruct (Nat.eq_dec i (length l1)) as [-> | Hne].
    + rewrite nth_error_app2 by lia. rewrite Nat.sub_diag. simpl.
      apply negb_true_iff in Hr. rewrite Hr.
      replace (nth_error l1 (length l1)) with (@None ascii); [reflexivity|].
      symmetry. apply nth_error_None. lia.
    + rewrite nth_error_cut by lia. destruct (nth_error l1 i); [|reflexivity].
      destruct (f a); [apply Hk; lia | reflexivity].
  - apply andb_prop in Hr as [Ha Hb]. apply IHa; auto.
    intros j Hj. apply IHb; auto; [lia|]. intros j' Hj'. apply Hk. lia.
  - apply andb_prop in Hr as [Ha Hb].
    rewrite (IHa l1 l2 i k1 k2), (IHb l1 l2 i k1 k2); auto.
  - apply negb_true_iff in Hr.
    rewrite skipn_app. replace (i - length l1) with 0 by lia. simpl.
    apply star_go_cut; [exact Hr|].
    intros j Hj. apply Hk. rewrite length_skipn in Hj. lia.
  - rewrite boundary_cut by exact Hi. destruct (boundary l1 i); [apply Hk; lia | reflexivity].
  - destruct (Nat.eqb i 0); [apply Hk; lia | reflexivity].
  - rewrite (IHa l1 l2 i (fun j => Some j) (fun j => Some j)) by auto.
    destruct (m a l1 i (fun j => Some j)); [reflexivity | apply Hk; lia].
Qed.

(** A pattern built by [s] can only match at the start of the line. *)
Lemma search_s_pat : forall p s,
  search (s_pat p) s = match match_at (s_pat p) s 0 with Some _ => true | None => false end.
Proof.
  intros p s. unfold search. simpl.
  assert (H : forall n start, 1 <= start ->
    existsb (fun i => match match_at (s_pat p) s i with Some _ => true | None => false end)
            (seq start n) = false).
  { induction n as [|n IH]; intros start Hs; [reflexivity|]. simpl.
    unfold match_at at 1. simpl. destruct start as [|st]; [lia|]. simpl.
    apply IH. lia. }
  rewrite H by lia. rewrite orb_false_r. reflexivity.
Qed.

Lemma search_s_pat_cut : forall p l1 l2,
  pct_safe (s_pat p) = true ->
  search (s_pat p) (l1 ++ "%"%char :: l2) = search (s_pat p) l1.
Proof.
  intros p l1 l2 Hp. rewrite !search_s_pat. unfold match_at.
  rewrite (m_cut (s_pat p) l1 l2 0 (fun j => Some j) (fun j => Some j)); auto. lia.
Qed.

Lemma nodup_map_filter : forall {A B} (g : A -> B) f (l : list A),
  NoDup (map g l) -> NoDup (map g (filter f l)).
Proof.
  intros A B g f l. induction l as [|x l IH]; intros H; simpl; [constructor|].
  inversion H as [|y l' Hy Hl]; subst. destruct (f x); simpl; [|auto].
  constructor; [|auto]. intros Hin. apply Hy.
  apply in_map_iff in Hin as (z & Hz & Hin). apply filter_In in Hin as [Hin _].
  rewrite <- Hz. apply in_map. exact Hin.
Qed.

Lemma in_map_snd_unique : forall {A B} (l : list (A * B)) a a' b,
  NoDup (map snd l) -> In (a, b) l -> In (a', b) l -> a = a'.
Proof.
  intros A B l. induction l as [|[x y] l IH]; intros a a' b Hnd H1 H2; [destruct H1|].
  inversion Hnd as [|z l' Hz Hl]; subst. simpl in H1, H2.
  destruct H1 as [E1 | H1], H2 as [E2 | H2].
  - congruence.
  - inversion E1; subst. exfalso. apply Hz. apply (in_map snd l (a', b)). exact H2.
  - inversion E2; subst. exfalso. apply Hz. apply (in_map snd l (a, b)). exact H1.
  - eapply IH; eauto.
Qed.

(** C7: over all the lines of a statement file, each line check gives its
    finding at most once (exactly when some line matches), and what follows
    a [%] on a line, the [%] included, plays no part in the match. *)
Theorem line_checks_once_per_file : forall lines,
  NoDup (line_checks lines) /\
  forall p msg, In (p, msg) _regex_checks ->
    (In msg (line_checks lines) <-> existsb (search p) lines = true) /\
    (forall l1 l2, search p (l1 ++ "%"%char :: l2) = search p l1).
Proof.
  intros lines.
  assert (Hnd : NoDup (map snd _regex_checks)) by (vm_compute; repeat constructor; intros H; repeat destruct H as [H | H]; discriminate || exact H).
  split; [apply nodup_map_filter; exact Hnd|].
  intros p msg Hin. split.
  - unfold line_checks. rewrite in_map_iff. split.
    + intros ([p' msg'] & Hm & Hf). simpl in Hm. subst msg'.
      apply filter_In in Hf as [Hf Hb].
      rewrite (in_map_snd_unique _regex_checks p p' msg Hnd Hin Hf). exact Hb.
    + intros Hb. exists (p, msg). split; [reflexivity|]. apply filter_In. auto.
  - intros l1 l2. simpl in Hin.
    destruct Hin as [E | [E | [E | [E | [E | []]]]]]; injection E as <- _;
      apply search_s_pat_cut; vm_compute; reflexivity.
Qed.

(** ** The tokenizer *)

Lemma nth_error_skipn' : forall (s : pystr) i p, nth_error (skipn i s) p = nth_error s (i + p).
Proof.
  induction s as [|c s IH]; intros [|i] p; simpl; auto.
  destruct p; reflexivity.
Qed.

Lemma star_go_sound : forall s f rest i k e,
  (forall p, nth_error rest p = nth_error s (i + p)) ->
  star_go f rest i k = Some e ->
  exists j, i <= j /\ (forall p, i <= p < j -> exists c, nth_error s p = Some c /\ f c = true) /\
            k j = Some e.
Proof.
  intros s f rest. induction rest as [|c rest IH]; intros i k e Hr H; simpl in H.
  - exists i. split; [lia|]. split; [intros; lia | exact H].
  - assert (Hc : nth_error s i = Some c) by (rewrite <- (Nat.add_0_r i), <- Hr; reflexivity).
    destruct (f c) eqn:Hf; [|exists i; split; [lia|]; split; [intros; lia | exact H]].
    destruct (star_go f rest (S i) k) as [e'|] eqn:E.
    + injection H as <-.
      destruct (IH (S i) k e') as (j & Hj & Hp & Hk).
      { intros p. specialize (Hr (S p)). simpl in Hr. rewrite Hr. f_equal. lia. }
      { exact E. }
      exists j. split; [lia|]. split; [|exact Hk].
      intros p Hp'. destruct (Nat.eq_dec p i) as [-> | Hne]; [exists c; auto|]. apply Hp. lia.
    + exists i. split; [lia|]. split; [intros; lia | exact H].
Qed.

Lemma m_sound : forall r s i k e,
  m r s i k = Some e -> exists j, sem s r i j /\ k j = Some e.
Proof.
  induction r as [| f | a IHa b IHb | a IHa b IHb | f | | | a IHa]; intros s i k e H;
    simpl in H |- *.
  - exists i. auto.
  - destruct (nth_error s i) as [c|] eqn:E; [|discriminate].
    destruct (f c) eqn:Hf; [|discriminate]. exists (S i). split; [split; [reflexivity | eauto] | exact H].
  - destruct (IHa s i _ e H) as (mid & Hsa & Hb).
    destruct (IHb s mid k e Hb) as (j & Hsb & Hk). exists j. split; [exists mid; auto | exact Hk].
  - destruct (m a s i k) as [e'|] eqn:E.
    + injection H as <-. destruct (IHa s i k e' E) as (j & Hs & Hk). exists j. auto.
    + destruct (IHb s i k e H) as (j & Hs & Hk). exists j. auto.
  - apply (star_go_sound s f (skipn i s) i k e) in H; [| intros p; apply nth_error_skipn'].
    destruct H as (j & Hj & Hp & Hk). exists j. auto.
  - destruct (boundary s i) eqn:E; [|discriminate]. exists i. auto.
  - destruct (Nat.eqb i 0) eqn:E; [|discriminate]. apply Nat.eqb_eq in E. exists i. auto.
  - destruct (m a s i (fun j => Some j)); [discriminate|]. exists i. auto.
Qed.

Lemma word_not_space : forall c, is_word c = true -> is_space c = false.
Proof.
  intros c. destruct c as [[] [] [] [] [] [] [] []]; vm_compute; intros H;
    reflexivity || discriminate H.
Qed.

Lemma nth_error_substr : forall s i j p,
  p < j - i -> nth_error (substr s i j) p = nth_error s (i + p).
Proof.
  intros s i j p Hp. unfold substr. rewrite nth_error_firstn.
  destruct (p <? j - i) eqn:E; [apply nth_error_skipn' | apply Nat.ltb_ge in E; lia].
Qed.

Lemma length_substr : forall s i j, j <= length s -> length (substr s i j) = j - i.
Proof.
  intros s i j Hj. unfold substr. rewrite length_firstn, length_skipn. lia.
Qed.

Lemma tok_match_shaped : forall s i j,
  match_at plain_text_word_re s i = Some j -> token_shaped (substr s i j).
Proof.
  intros s i j H. unfold match_at in H. apply m_sound in H as (j' & Hs & Hk).
  injection Hk as Hjj. subst j'.
  cbn [plain_text_word_re seq_of opt sem] in Hs.
  destruct Hs as (m1 & [-> Hb1] & m2 & [-> (c0 & Hc0 & Hw0)] & m3 & Halt & [Hj Hb2]).
  subst m3.
  assert (Hword : forall q c, nth_error s q = Some c -> is_word c = true ->
                  word_at s q = true) by (intros q c Hq Hc; unfold word_at; rewrite Hq; exact Hc).
  assert (Hlen : exists l, j = S i + l /\ j <= length s /\
            (forall q c, i <= q < j -> nth_error s q = Some c -> is_space c = false) /\
            word_at s (j - 1) = true).
  { destruct Halt as [(m4 & [Hle Hstar] & Hm4 & (c4 & Hc4 & Hw4)) | Hm4]; subst j.
    - exists (m4 - i). split; [lia|]. split.
      { assert (nth_error s m4 <> None) by congruence. apply nth_error_Some in H. lia. }
      split.
      + intros q c Hq Hc. destruct (Nat.eq_dec q i) as [-> | Hne1].
        { rewrite Hc0 in Hc. injection Hc as <-. apply word_not_space. exact Hw0. }
        destruct (Nat.eq_dec q m4) as [-> | Hne2].
        { rewrite Hc4 in Hc. injection Hc as <-. apply word_not_space. exact Hw4. }
        destruct (Hstar q) as (c' & Hc' & Hns); [lia|]. rewrite Hc in Hc'. injection Hc' as <-.
        unfold not_space in Hns. apply negb_true_iff in Hns. exact Hns.
      + replace (S m4 - 1) with m4 by lia. eapply Hword; eauto.
    - exists 0. split; [lia|]. split.
      { assert (nth_error s i <> None) by congruence. apply nth_error_Some in H. lia. }
      split.
      + intros q c Hq Hc. replace q with i in Hc by lia. rewrite Hc0 in Hc.
        injection Hc as <-. apply word_not_space. exact Hw0.
      + replace (S i - 1) with i by lia. eapply Hword; eauto. }
  destruct Hlen as (l & -> & Hle & Hns & Hlast).
  unfold token_shaped. rewrite length_substr by exact Hle.
  split; [lia|]. split; [|split].
  - intros p c Hp. destruct (Nat.lt_ge_cases p (S i + l - i)) as [Hlt | Hge].
    + rewrite nth_error_substr in Hp by exact Hlt. apply (Hns (i + p)); [lia | exact Hp].
    + assert (Hn : nth_error (substr s i (S i + l)) p = None).
      { apply nth_error_None. rewrite length_substr by exact Hle. lia. }
      congruence.
  - unfold word_at. rewrite nth_error_substr by lia. rewrite Nat.add_0_r, Hc0. exact Hw0.
  - unfold word_at. rewrite nth_error_substr by lia.
    replace (i + (S i + l - i - 1)) with (S i + l - 1) by lia. exact Hlast.
Qed.

Lemma star_go_stop : forall f rest i k,
  (rest = [] \/ exists c r, rest = c :: r /\ f c = false) ->
  star_go f rest i k = k i.
Proof.
  intros f rest i k [-> | (c & r & -> & Hc)]; simpl; [reflexivity|]. rewrite Hc. reflexivity.
Qed.

(** When the longest run fails and the one a character shorter succeeds. *)
Lemma star_go_back_one : forall f rest xs i k e,
  Forall (fun c => f c = true) xs ->
  (rest = [] \/ exists c r, rest = c :: r /\ f c = false) ->
  1 <= length xs ->
  k (i + length xs) = None -> k (i + length xs - 1) = Some e ->
  star_go f (xs ++ rest) i k = Some e.
Proof.
  intros f rest xs. induction xs as [|x xs IH]; intros i k e Hall Hstop Hlen Hnone Hsome;
    simpl in Hlen |- *; [lia|].
  inversion Hall as [|y ys Hx Hxs]; subst. rewrite Hx.
  destruct xs as [|x' xs'].
  - rewrite star_go_stop by exact Hstop. simpl in Hnone, Hsome.
    replace (i + 1) with (S i) in Hnone by lia. rewrite Hnone.
    replace (i + 1 - 1) with i in Hsome by lia. exact Hsome.
  - rewrite (IH (S i) k e); auto.
    + simpl. lia.
    + simpl in Hnone |- *.
      match goal with |- k ?a = None => replace a with (i + S (S (length xs'))) by lia end.
      exact Hnone.
    + simpl in Hsome |- *.
      match goal with |- k ?a = Some e => replace a with (i + S (S (length xs')) - 1) by lia end.
      exact Hsome.
Qed.

Lemma nth_error_mid : forall (pre w post : pystr) p,
  nth_error (pre ++ w ++ post) (length pre + p) = nth_error (w ++ post) p.
Proof. intros. rewrite nth_error_app2 by lia. f_equal. lia. Qed.

Lemma word_at_space : forall s q c, nth_error s q = Some c -> is_space c = true -> word_at s q = false.
Proof.
  intros s q c Hq Hc. unfold word_at. rewrite Hq.
  destruct (is_word c) eqn:Hw; [|reflexivity].
  apply word_not_space in Hw. congruence.
Qed.

Lemma tok_not_word : forall s q,
  word_at s q = false -> match_at plain_text_word_re s q = None.
Proof.
  intros s q H. unfold match_at, plain_text_word_re. cbn [seq_of m].
  unfold word_at in H.
  destruct (boundary s q); [|reflexivity].
  destruct (nth_error s q); [|reflexivity]. rewrite H. reflexivity.
Qed.

(** At the start of a token that is followed by whitespace or the end, the
    tokenizer matches exactly the token. *)
Lemma tok_at_start : forall pre w post,
  token_shaped w ->
  (forall j, S j = length pre -> word_at pre j = false) ->
  (post = [] \/ exists c r, post = c :: r /\ is_space c = true) ->
  match_at plain_text_word_re (pre ++ w ++ post) (length pre)
  = Some (length pre + length w).
Proof.
  intros pre w post (Hlen & Hns & Hw0 & Hwl) Hpre Hpost.
  set (s := pre ++ w ++ post). set (i := length pre).
  assert (Hin : forall p, p < length w -> nth_error s (i + p) = nth_error w p).
  { intros p Hp. unfold s, i. rewrite nth_error_mid. apply nth_error_app1. exact Hp. }
  assert (Hend : nth_error s (i + length w) = hd_error post).
  { unfold s, i. rewrite nth_error_mid, nth_error_app2 by lia. rewrite Nat.sub_diag.
    destruct post; reflexivity. }
  assert (Hwend : word_at s (i + length w) = false).
  { unfold word_at. rewrite Hend.
    destruct Hpost as [-> | (c & r & -> & Hc)]; [reflexivity|]. simpl.
    destruct (is_word c) eqn:E; [|reflexivity]. apply word_not_space in E. congruence. }
  assert (Hwi : word_at s i = true).
  { unfold word_at in *. rewrite <- (Nat.add_0_r i), Hin by lia. exact Hw0. }
  assert (Hwl' : word_at s (i + length w - 1) = true).
  { unfold word_at in *. replace (i + length w - 1) with (i + (length w - 1)) by lia.
    rewrite Hin by lia. exact Hwl. }
  assert (Hb : boundary s i = true).
  { unfold boundary. rewrite Hwi. destruct i as [|j] eqn:Ei; [reflexivity|].
    unfold word_at. unfold s. rewrite nth_error_app1 by lia.
    pose proof (Hpre j (eq_sym Ei)) as Hj. unfold word_at in Hj. rewrite Hj. reflexivity. }
  destruct w as [|c0 wt]; simpl in Hlen; [lia|].
  assert (Hc0 : nth_error s i = Some c0) by (rewrite <- (Nat.add_0_r i), Hin by (simpl; lia); reflexivity).
  assert (Hw0' : is_word c0 = true) by (unfold word_at in Hw0; exact Hw0).
  assert (Hskip : skipn (S i) s = wt ++ post).
  { unfold s, i. rewrite skipn_app, skipn_all2 by lia. rewrite Nat.sub_succ_l by lia.
    rewrite Nat.sub_diag. reflexivity. }
  unfold match_at, plain_text_word_re. cbn [seq_of opt m].
  rewrite Hb, Hc0, Hw0', Hskip.
  assert (Hstop : post = [] \/ exists c r, post = c :: r /\ not_space c = false).
  { destruct Hpost as [-> | (c & r & -> & Hc)]; [left; reflexivity|].
    right. exists c, r. split; [reflexivity|]. unfold not_space. rewrite Hc. reflexivity. }
  assert (Hfail : match nth_error s (i + length (c0 :: wt)) with
                  | Some c => if is_word c then (if boundary s (S (i + length (c0 :: wt)))
                                                then Some (S (i + length (c0 :: wt))) else None)
                              else None
                  | None => None end = None).
  { unfold word_at in Hwend. destruct (nth_error s (i + length (c0 :: wt))); [|reflexivity].
    rewrite Hwend. reflexivity. }
  destruct wt as [|c1 wt'].
  - rewrite star_go_stop by exact Hstop. simpl in Hfail. replace (i + 1) with (S i) in Hfail by lia.
    rewrite Hfail. unfold boundary. simpl. rewrite Hwi.
    replace (S i) with (i + length [c0]) by (simpl; lia). rewrite Hwend. reflexivity.
  - rewrite (star_go_back_one not_space post (c1 :: wt') (S i) _ (i + length (c0 :: c1 :: wt'))).
    + reflexivity.
    + apply Forall_forall. intros c Hc. apply In_nth_error in Hc as (p & Hp).
      unfold not_space. apply negb_true_iff. apply (Hns (S p)). exact Hp.
    + exact Hstop.
    + simpl. lia.
    + replace (S i + length (c1 :: wt')) with (i + length (c0 :: c1 :: wt')) by (simpl; lia).
      exact Hfail.
    + replace (S i + length (c1 :: wt') - 1) with (i + length (c0 :: c1 :: wt') - 1) by (simpl; lia).
      set (n := i + length (c0 :: c1 :: wt')) in *.
      assert (Hn : n = S (n - 1)) by (unfold n; simpl; lia).
      assert (Hbn : boundary s n = true).
      { unfold boundary. rewrite Hwend. rewrite Hn. cbn iota. rewrite Hwl'. reflexivity. }
      unfold word_at in Hwl'. destruct (nth_error s (n - 1)) as [c|]; [|discriminate].
      rewrite Hwl', <- Hn, Hbn. reflexivity.
Qed.

Lemma finditer_go_spans : forall r s fuel pos i j,
  In (i, j) (finditer_go r s fuel pos) -> match_at r s i = Some j.
Proof.
  intros r s fuel. induction fuel as [|fuel IH]; intros pos i j H; simpl in H; [destruct H|].
  destruct (length s <? pos); [destruct H|].
  destruct (match_at r s pos) as [j'|] eqn:E.
  - destruct H as [H | H]; [injection H as <- <-; exact E | eapply IH; eauto].
  - eapply IH; eauto.
Qed.

Lemma finditer_tokens_shaped : forall s w,
  In w (finditer plain_text_word_re s) -> token_shaped w.
Proof.
  intros s w H. unfold finditer in H. apply in_map_iff in H as ([i j] & <- & Hin).
  apply tok_match_shaped. eapply finditer_go_spans. exact Hin.
Qed.

Lemma finditer_go_end : forall s fuel,
  finditer_go plain_text_word_re s fuel (length s) = [].
Proof.
  intros s [|fuel]; simpl; [reflexivity|]. rewrite Nat.ltb_irrefl.
  rewrite tok_not_word.
  - destruct fuel; simpl; [reflexivity|]. replace (length s <? S (length s)) with true; [reflexivity|].
    symmetry. apply Nat.ltb_lt. lia.
  - unfold word_at. replace (nth_error s (length s)) with (@None ascii); [reflexivity|].
    symmetry. apply nth_error_None. lia.
Qed.

Lemma substr_mid : forall (pre w post : pystr),
  substr (pre ++ w ++ post) (length pre) (length pre + length w) = w.
Proof.
  intros. unfold substr. replace (length pre + length w - length pre) with (length w) by lia.
  rewrite skipn_app, skipn_all2 by lia. rewrite Nat.sub_diag. simpl.
  rewrite firstn_app, Nat.sub_diag, firstn_all. simpl. apply app_nil_r.
Qed.

(** The tokens of space-separated tokens are these tokens, in order. *)
Lemma finditer_join_go : forall L pre fuel,
  Forall token_shaped L ->
  (forall j, S j = length pre -> word_at pre j = false) ->
  length (join sp L) < fuel ->
  map (fun '(i, j) => substr (pre ++ join sp L) i j)
      (finditer_go plain_text_word_re (pre ++ join sp L) fuel (length pre)) = L.
Proof.
  induction L as [|w L IH]; intros pre fuel Hall Hpre Hfuel.
  - simpl. rewrite app_nil_r, finditer_go_end. reflexivity.
  - inversion Hall as [|w' L' Hw HL]; subst.
    pose proof Hw as (Hlen & _).
    destruct fuel as [|fuel]; [simpl in Hfuel; lia|].
    destruct L as [|w2 L''].
    + simpl join. rewrite <- (app_nil_r w). cbn [finditer_go].
      rewrite app_nil_r.
      replace (length (pre ++ w) <? length pre) with false
        by (symmetry; apply Nat.ltb_ge; rewrite length_app; lia).
      pose proof (tok_at_start pre w [] Hw Hpre (or_introl eq_refl)) as Ht.
      rewrite app_nil_r in Ht. rewrite Ht.
      replace (Nat.eqb (length pre + length w) (length pre)) with false
        by (symmetry; apply Nat.eqb_neq; lia).
      replace (length pre + length w) with (length (pre ++ w)) at 2 by apply length_app.
      rewrite finditer_go_end. cbn [map].
      pose proof (substr_mid pre w []) as Hsub. rewrite app_nil_r in Hsub. rewrite Hsub.
      reflexivity.
    + change (join sp (w :: w2 :: L'')) with (w ++ sp ++ join sp (w2 :: L'')) in *.
      set (rest := join sp (w2 :: L'')) in *.
      cbn [finditer_go].
      replace (length (pre ++ w ++ sp ++ rest) <? length pre) with false
        by (symmetry; apply Nat.ltb_ge; rewrite !length_app; lia).
      rewrite (tok_at_start pre w (sp ++ rest) Hw Hpre).
      2:{ right. exists " "%char, rest. split; reflexivity. }
      replace (Nat.eqb (length pre + length w) (length pre)) with false
        by (symmetry; apply Nat.eqb_neq; lia).
      destruct fuel as [|fuel]; [rewrite !length_app in Hfuel; simpl in Hfuel; lia|].
      cbn [finditer_go].
      replace (length (pre ++ w ++ sp ++ rest) <? length pre + length w) with false
        by (symmetry; apply Nat.ltb_ge; rewrite !length_app; lia).
      rewrite tok_not_word.
      2:{ apply (word_at_space _ _ " "%char); [|reflexivity].
          rewrite nth_error_mid. rewrite nth_error_app2 by lia. rewrite Nat.sub_diag. reflexivity. }
      cbn [map]. rewrite substr_mid. f_equal.
      assert (Es : pre ++ w ++ sp ++ rest = (pre ++ w ++ sp) ++ rest)
        by (rewrite <- !app_assoc; reflexivity).
      assert (El : S (length pre + length w) = length (pre ++ w ++ sp))
        by (rewrite !length_app; simpl; lia).
      rewrite Es, El. apply IH; [exact HL| |].
      * intros j Hj. rewrite length_app, length_app in Hj. simpl in Hj.
        apply (word_at_space _ _ " "%char); [|reflexivity].
        replace j with (length pre + length w) by lia.
        rewrite nth_error_mid.
        rewrite nth_error_app2 by lia. rewrite Nat.sub_diag. reflexivity.
      * rewrite !length_app in Hfuel. simpl in Hfuel. lia.
Qed.

Lemma finditer_join : forall L,
  Forall token_shaped L -> finditer plain_text_word_re (join sp L) = L.
Proof.
  intros L HL. unfold finditer.
  apply (finditer_join_go L [] (S (length (join sp L))) HL).
  - intros j Hj. discriminate Hj.
  - lia.
Qed.

Lemma in_set_add : forall w x l, In w (set_add x l) <-> In w l \/ w = x.
Proof.
  intros w x l. unfold set_add. destruct (str_in x l) eqn:E.
  - split; [auto|]. intros [H | ->]; [exact H|].
    unfold str_in in E. apply existsb_exists in E as (y & Hy & Hxy).
    apply str_eqb_eq in Hxy. subst y. exact Hy.
  - rewrite in_app_iff. simpl. split; intros [H | H]; auto.
    + destruct H as [H | []]; auto.
Qed.

Lemma in_set_of : forall l w, In w (set_of l) <-> In w l.
Proof.
  intros l w. unfold set_of.
  assert (H : forall l acc, In w (fold_left (fun acc x => set_add x acc) l acc) <->
                            In w acc \/ In w l).
  { induction l0 as [|x l0 IH]; intros acc; simpl; [tauto|].
    rewrite IH, in_set_add. intuition congruence. }
  rewrite H. simpl. tauto.
Qed.

(** C8: joining the token set of a text with single spaces and tokenizing
    again gives the same token set (for any order of the set). *)
Theorem tokenize_idempotent : forall text (L : list pystr),
  (forall w, In w L <-> In w (plain_words text)) ->
  forall w, In w (plain_words (join sp L)) <-> In w (plain_words text).
Proof.
  intros text L HL w.
  assert (Hsh : Forall token_shaped L).
  { apply Forall_forall. intros x Hx. apply HL in Hx. unfold plain_words in Hx.
    apply (proj1 (in_set_of _ _)) in Hx. eapply finditer_tokens_shaped. exact Hx. }
  unfold plain_words at 1. rewrite finditer_join by exact Hsh.
  rewrite in_set_of. apply HL.
Qed.

Lemma tokenize_idempotent_witness :
  (forall w, In w (plain_words (py "(The) cat's cat, 3.14...")) <->
             In w (plain_words (py "(The) cat's cat, 3.14..."))) /\
  forall w, In w (plain_words (join sp (plain_words (py "(The) cat's cat, 3.14...")))) <->
            In w (plain_words (py "(The) cat's cat, 3.14...")).
Proof.
  split; [intros w; reflexivity|].
  apply (tokenize_idempotent (py "(The) cat's cat, 3.14...")
           (plain_words (py "(The) cat's cat, 3.14..."))).
  intros w. reflexivity.
Defined.

(** ** The metadata checker on mismatched shapes *)











(** ** The dictionary store across lookups *)

Lemma heap_set_length : forall h loc v, length (heap_set h loc v) = length h.
Proof.
  induction h as [|x h IH]; intros [|loc] v; simpl; auto.
Qed.

Lemma heap_get_set : forall h loc v loc',
  heap_get (heap_set h loc v) loc' =
  if andb (Nat.eqb loc loc') (Nat.ltb loc (length h)) then v else heap_get h loc'.
Proof.
  unfold heap_get.
  induction h as [|x h IH]; intros loc v loc'.
  - simpl. rewrite andb_false_r. reflexivity.
  - destruct loc as [|loc], loc' as [|loc']; simpl; try reflexivity.
    rewrite IH. reflexivity.
Qed.

Lemma in_set_union : forall w a b, In w (set_union a b) <-> In w a \/ In w b.
Proof.
  intros w a b. unfold set_union. revert a.
  induction b as [|x b IH]; intros a; simpl.
  - tauto.
  - rewrite IH, in_set_add. intuition congruence.
Qed.

Lemma store_get_in : forall language st loc,
  store_get language st = Some loc -> In (language, loc) st.
Proof.
  induction st as [|[l i] st IH]; intros loc H; simpl in *; [discriminate|].
  destruct (str_eqb l language) eqn:E.
  - apply str_eqb_eq in E. subst. injection H as <-. left. reflexivity.
  - right. apply IH. exact H.
Qed.

Lemma store_get_app_none : forall language st x,
  store_get language st = None -> store_get language (st ++ [x]) = store_get language [x].
Proof.
  induction st as [|[l i] st IH]; intros x H; simpl in *; [reflexivity|].
  destruct (str_eqb l language); [discriminate|]. apply IH. exact H.
Qed.

Lemma fold_heap_set_length : forall (files : list (list pystr)) f loc heap,
  length (fold_left (fun h lines => heap_set h loc (f h lines)) files heap) = length heap.
Proof.
  induction files as [|x files IH]; intros f loc heap; simpl; [reflexivity|].
  rewrite IH. apply heap_set_length.
Qed.

Lemma load_dir_inv : forall st d, store_inv st -> store_inv (load_dir st d).
Proof.
  intros [store heap] [language files] [Hs Hh]. simpl in Hs, Hh. unfold load_dir.
  destruct (store_get language store) as [loc|] eqn:E.
  - rewrite E. split; simpl; [exact Hs|].
    rewrite (fold_heap_set_length files
               (fun h lines => set_union (heap_get h loc)
                                 (set_of (map (fun line => lower (strip line)) lines)))).
    exact Hh.
  - rewrite (store_get_app_none _ _ _ E). simpl. rewrite str_eqb_refl.
    split; simpl.
    + rewrite map_app, Hs, length_app, Hh. simpl.
      rewrite Nat.add_1_r, seq_S. reflexivity.
    + rewrite (fold_heap_set_length files
                 (fun h lines => set_union (heap_get h (length heap))
                                   (set_of (map (fun line => lower (strip line)) lines)))).
      rewrite !length_app, Hh. reflexivity.
Qed.

Lemma load_inv : forall dirs, store_inv (load_spelling_dictionaries dirs).
Proof.
  intros dirs. unfold load_spelling_dictionaries.
  assert (H : forall dirs st, store_inv st -> store_inv (fold_left load_dir dirs st)).
  { induction dirs0 as [|d ds IH]; intros st Hst; simpl; [exact Hst|].
    apply IH. apply load_dir_inv. exact Hst. }
  apply H. split; reflexivity.
Qed.

Lemma store_inv_loc_lt : forall st language loc,
  store_inv st -> store_get language (fst st) = Some loc -> loc < length (snd st).
Proof.
  intros st language loc [Hs Hh] H. apply store_get_in in H.
  apply (in_map snd) in H. simpl in H. rewrite Hs in H.
  apply in_seq in H. lia.
Qed.

Lemma store_inv_loc_inj : forall st a b loc,
  store_inv st -> store_get a (fst st) = Some loc -> store_get b (fst st) = Some loc -> a = b.
Proof.
  intros st a b loc [Hs _] Ha Hb. apply store_get_in in Ha, Hb.
  assert (Hnd : NoDup (map snd (fst st))) by (rewrite Hs; apply seq_NoDup).
  exact (in_map_snd_unique _ _ _ _ Hnd Ha Hb).
Qed.

Lemma lookup_dictionary_store : forall language st,
  fst (snd (lookup_dictionary language st)) = fst st.
Proof.
  intros language [store heap]. simpl.
  destruct (store_get language store); reflexivity.
Qed.

(** A lookup only adds words to the sets of the store. *)
Lemma lookup_dictionary_grows : forall language st loc w,
  In w (heap_get (snd st) loc) -> In w (heap_get (snd (snd (lookup_dictionary language st))) loc).
Proof.
  intros language [store heap] loc w H. simpl in *.
  destruct (store_get language store) as [l|]; simpl; [|exact H].
  rewrite heap_get_set.
  destruct (Nat.eqb l loc) eqn:E1; destruct (Nat.ltb l (length heap)); simpl; try exact H.
  apply Nat.eqb_eq in E1. subst. apply in_set_union. left. exact H.
Qed.

Lemma lookups_grows : forall languages st loc w,
  In w (heap_get (snd st) loc) -> In w (heap_get (snd (lookups languages st)) loc).
Proof.
  induction languages as [|l ls IH]; intros st loc w H; simpl; [exact H|].
  apply IH. apply lookup_dictionary_grows. exact H.
Qed.

Lemma lookup_dictionary_inv_spec : forall st language loc,
  store_inv st -> language <> py "global" ->
  store_get language (fst st) = Some loc ->
  let st1 := snd (lookup_dictionary language st) in
  fst (lookup_dictionary language st) = Some loc /\
  fst st1 = fst st /\
  (forall w, In w (global_words st) \/ In w (heap_get (snd st) loc) ->
     In w (heap_get (snd st1) loc)) /\
  (forall g, store_get (py "global") (fst st) = Some g ->
     heap_get (snd st1) g = heap_get (snd st) g).
Proof.
  intros st language loc Hinv Hne Hl st1. subst st1.
  pose proof (store_inv_loc_lt st language loc Hinv Hl) as Hlt.
  destruct st as [store heap]. simpl in *. rewrite Hl. simpl.
  split; [reflexivity|]. split; [reflexivity|]. split.
  - intros w Hw. rewrite heap_get_set, Nat.eqb_refl.
    apply Nat.ltb_lt in Hlt. rewrite Hlt. simpl.
    apply in_set_union. unfold global_words in Hw. simpl in Hw. tauto.
  - intros g Hg. rewrite heap_get_set.
    destruct (Nat.eqb loc g) eqn:E; simpl; [|reflexivity].
    apply Nat.eqb_eq in E. subst g.
    exfalso. apply Hne.
    exact (store_inv_loc_inj (store, heap) language (py "global") loc Hinv Hl Hg).
Qed.

(** C10: for a language [language] other than ["global"] that is in the store
    built by [load_spelling_dictionaries], the lookup of lines 215 to 217
    updates the language's set in place. The store keeps the same entries;
    the set at the language's location then holds every word of the global
    set (and its old words), and keeps holding them through all later
    lookups; the global set is unchanged; and when the global set has a word
    the language's set lacked, the heap of sets differs from the one before
    the lookup. *)
Theorem lookup_merges_global_in_place : forall dirs language loc,
  language <> py "global" ->
  store_get language (fst (load_spelling_dictionaries dirs)) = Some loc ->
  let st := load_spelling_dictionaries dirs in
  let st1 := snd (lookup_dictionary language st) in
  fst (lookup_dictionary language st) = Some loc /\
  fst st1 = fst st /\
  (forall later w, In w (global_words st) \/ In w (heap_get (snd st) loc) ->
     In w (heap_get (snd (lookups later st1)) loc)) /\
  (forall g, store_get (py "global") (fst st) = Some g ->
     heap_get (snd st1) g = heap_get (snd st) g) /\
  ((exists w, In w (global_words st) /\ ~ In w (heap_get (snd st) loc)) ->
     snd st1 <> snd st).
Proof.
  intros dirs language loc Hne Hl st st1.
  destruct (lookup_dictionary_inv_spec st language loc (load_inv dirs) Hne Hl)
    as (Hr & Hs & Hw & Hg).
  split; [exact Hr|]. split; [exact Hs|]. split; [|split; [exact Hg|]].
  - intros later w H. apply lookups_grows. apply Hw. exact H.
  - intros (w & Hin & Hout) Heq. apply Hout.
    fold st1 in Hw. rewrite <- Heq. apply Hw. left. exact Hin.
Qed.

Lemma lookup_merges_global_in_place_witness :
  let dirs := [(py "global", [[py "Lemma"]]); (py "en", [[py "cat"; py "dog "]])] in
  (py "en" <> py "global" /\
   store_get (py "en") (fst (load_spelling_dictionaries dirs)) = Some 1) /\
  (let st := load_spelling_dictionaries dirs in
   let st1 := snd (lookup_dictionary (py "en") st) in
   fst (lookup_dictionary (py "en") st) = Some 1 /\
   fst st1 = fst st /\
   (forall later w, In w (global_words st) \/ In w (heap_get (snd st) 1) ->
      In w (heap_get (snd (lookups later st1)) 1)) /\
   (forall g, store_get (py "global") (fst st) = Some g ->
      heap_get (snd st1) g = heap_get (snd st) g) /\
   ((exists w, In w (global_words st) /\ ~ In w (heap_get (snd st) 1)) ->
      snd st1 <> snd st)).
Proof.
  intros dirs.
  assert (Hne : py "en" <> py "global") by discriminate.
  assert (Hl : store_get (py "en") (fst (load_spelling_dictionaries dirs)) = Some 1)
    by (vm_compute; reflexivity).
  split; [split; [exact Hne | exact Hl]|].
  exact (lookup_merges_global_in_place dirs (py "en") 1 Hne Hl).
Defined.

(** * Properties of the rest of the script *)

(** ** Sorted sets of strings *)

Lemma str_ltb_irrefl : forall s, str_ltb s s = false.
Proof.
  induction s as [|a s IH]; simpl; [reflexivity|].
  rewrite Nat.ltb_irrefl. exact IH.
Qed.

Lemma str_ltb_asym : forall s t, str_ltb s t = true -> str_ltb t s = false.
Proof.
  induction s as [|a s IH]; destruct t as [|b t]; simpl; intros H; try reflexivity; try discriminate.
  destruct (nat_of_ascii a <? nat_of_ascii b) eqn:E1.
  - apply Nat.ltb_lt in E1. destruct (nat_of_ascii b <? nat_of_ascii a) eqn:E2.
    + apply Nat.ltb_lt in E2. lia.
    + reflexivity.
  - destruct (nat_of_ascii b <? nat_of_ascii a) eqn:E2; [discriminate|].
    apply IH. exact H.
Qed.

Lemma str_ltb_total : forall s t, str_ltb s t = false -> str_ltb t s = false -> s = t.
Proof.
  induction s as [|a s IH]; destruct t as [|b t]; simpl; intros H1 H2;
    try reflexivity; try discriminate.
  destruct (nat_of_ascii a <? nat_of_ascii b) eqn:E1; [discriminate|].
  destruct (nat_of_ascii b <? nat_of_ascii a) eqn:E2; [discriminate|].
  apply Nat.ltb_ge in E1, E2.
  assert (Hab : a = b).
  { rewrite <- (ascii_nat_embedding a), <- (ascii_nat_embedding b). f_equal. lia. }
  subst b. f_equal. apply IH; assumption.
Qed.

Lemma insert_sorted_perm : forall w l, Permutation (insert_sorted w l) (w :: l).
Proof.
  induction l as [|x l IH]; simpl; [reflexivity|].
  destruct (str_ltb w x); [reflexivity|].
  rewrite IH. apply perm_swap.
Qed.

Lemma sorted_perm : forall l, Permutation (sorted l) l.
Proof.
  induction l as [|x l IH]; simpl; [reflexivity|].
  rewrite insert_sorted_perm. apply perm_skip. exact IH.
Qed.

Lemma insert_sorted_sorted : forall w l, Sorted str_le l -> Sorted str_le (insert_sorted w l).
Proof.
  intros w l H. induction H as [|x l Hl IH Hx]; simpl.
  - repeat constructor.
  - destruct (str_ltb w x) eqn:E.
    + constructor; [constructor; assumption|]. constructor. unfold str_le.
      apply str_ltb_asym. exact E.
    + constructor; [exact IH|].
      destruct l as [|y l]; simpl.
      * constructor. exact E.
      * inversion Hx as [|? ? Hxy]; subst.
        destruct (str_ltb w y); constructor; [exact E | exact Hxy].
Qed.

Lemma sorted_sorted : forall l, Sorted str_le (sorted l).
Proof.
  induction l as [|x l IH]; simpl; [constructor|].
  apply insert_sorted_sorted. exact IH.
Qed.

Lemma sorted_strict : forall l, Sorted str_le l -> NoDup l -> Sorted str_lt l.
Proof.
  intros l H. induction H as [|x l Hl IH Hx]; intros Hnd; constructor.
  - inversion Hnd; subst. apply IH. assumption.
  - destruct Hx as [|y l' Hxy]; constructor.
    inversion Hnd as [|? ? Hnin]; subst.
    unfold str_lt. destruct (str_ltb x y) eqn:E; [reflexivity|].
    exfalso. apply Hnin. left. symmetry. apply str_ltb_total; assumption.
Qed.

(** [sorted] of a duplicate-free list is strictly increasing, with the same
    elements. *)
Lemma sorted_set_strict : forall l, NoDup l ->
  Sorted str_lt (sorted l) /\ (forall w, In w (sorted l) <-> In w l).
Proof.
  intros l Hnd. split.
  - apply sorted_strict; [apply sorted_sorted|].
    eapply Permutation_NoDup; [symmetry; apply sorted_perm | exact Hnd].
  - intros w. split; apply Permutation_in; [apply sorted_perm | symmetry; apply sorted_perm].
Qed.

Lemma str_in_iff : forall w l, str_in w l = true <-> In w l.
Proof.
  intros w l. unfold str_in. rewrite existsb_exists. split.
  - intros (x & Hx & E). apply str_eqb_eq in E. subst. exact Hx.
  - intros H. exists w. split; [exact H | apply str_eqb_refl].
Qed.

Lemma set_add_nodup : forall w l, NoDup l -> NoDup (set_add w l).
Proof.
  intros w l Hnd. unfold set_add. destruct (str_in w l) eqn:E; [exact Hnd|].
  apply NoDup_app; auto using NoDup_cons, NoDup_nil.
  - intros x Hx Hx'. destruct Hx' as [<- | []].
    apply (proj2 (str_in_iff w l)) in Hx. congruence.
Qed.

Lemma set_of_nodup : forall l, NoDup (set_of l).
Proof.
  intros l. unfold set_of.
  assert (H : forall l acc, NoDup acc -> NoDup (fold_left (fun acc w => set_add w acc) l acc)).
  { induction l0 as [|x l0 IH]; intros acc Hacc; simpl; [exact Hacc|].
    apply IH. apply set_add_nodup. exact Hacc. }
  apply H. constructor.
Qed.

(** ** Names, titles and large images *)

Lemma exn_eqb_eq : forall a b, exn_eqb a b = true <-> a = b.
Proof.
  intros [x|x|x] [y|y|y]; simpl; split; intros H; try discriminate;
    try (apply str_eqb_eq in H; subst; reflexivity);
    try (injection H as <-; apply str_eqb_refl).
Qed.

Lemma pyval_eqb_eq : forall a b, pyval_eqb a b = true <-> a = b.
Proof.
  intros [x|x] [y|y]; simpl; split; intros H; try discriminate.
  - apply str_eqb_eq in H. subst. reflexivity.
  - injection H as <-. apply str_eqb_refl.
  - apply exn_eqb_eq in H. subst. reflexivity.
  - injection H as <-. apply exn_eqb_eq. reflexivity.
Qed.

Lemma messages_for_log_append : forall l k k' msg,
  messages_for k' (log_append l (VStr k) msg) =
  messages_for k' l ++ (if str_eqb k k' then [msg] else []).
Proof.
  unfold messages_for.
  induction l as [|[k0 msgs] l IH]; intros k k' msg; simpl.
  - destruct (str_eqb k k'); reflexivity.
  - destruct (pyval_eqb k0 (VStr k)) eqn:E.
    + apply pyval_eqb_eq in E. subst k0. simpl.
      destruct (str_eqb k k') eqn:E'; [reflexivity|].
      rewrite app_nil_r. reflexivity.
    + simpl. destruct (pyval_eqb k0 (VStr k')) eqn:E'.
      * apply pyval_eqb_eq in E'. subst k0.
        destruct (str_eqb k k') eqn:E''.
        -- apply str_eqb_eq in E''. subst. simpl in E. rewrite str_eqb_refl in E. discriminate.
        -- rewrite app_nil_r. reflexivity.
      * apply IH.
Qed.

Lemma log_append_keys : forall l key msg,
  map fst (log_append l key msg) =
  if existsb (fun '(k, _) => pyval_eqb k key) l then map fst l else map fst l ++ [key].
Proof.
  induction l as [|[k0 msgs] l IH]; intros key msg; simpl; [reflexivity|].
  destruct (pyval_eqb k0 key); simpl; [reflexivity|].
  rewrite IH. destruct (existsb _ l); reflexivity.
Qed.

Lemma log_append_nodup : forall l key msg,
  NoDup (map fst l) -> NoDup (map fst (log_append l key msg)).
Proof.
  intros l key msg Hnd. rewrite log_append_keys.
  destruct (existsb (fun '(k, _) => pyval_eqb k key) l) eqn:E; [exact Hnd|].
  apply NoDup_app; [exact Hnd | constructor; [intros []|constructor] |].
  intros x Hx Hx'. destruct Hx' as [Hk | []]. subst x.
  apply in_map_iff in Hx as ([k msgs] & Hk & Hin). simpl in Hk. subst k.
  assert (Hc : existsb (fun '(k, _) => pyval_eqb k key) l = true).
  { apply existsb_exists. exists (key, msgs). split; [exact Hin|].
    apply pyval_eqb_eq. reflexivity. }
  simpl in Hc. congruence.
Qed.

Lemma in_set_inter : forall w a b, In w (set_inter a b) <-> In w a /\ In w b.
Proof.
  intros w a b. unfold set_inter. rewrite filter_In, str_in_iff. tauto.
Qed.

Lemma lower_alnum_char : forall c,
  is_ascii_alnum c = true -> is_lower_digit (lower_char c) = true.
Proof.
  intros c. destruct c as [[] [] [] [] [] [] [] []]; vm_compute; intros H;
    first [reflexivity | discriminate].
Qed.

Lemma short_title_chars : forall title c, In c (short_title title) -> is_lower_digit c = true.
Proof.
  intros title c H. unfold short_title, lower in H.
  apply in_map_iff in H as (d & <- & Hd). apply filter_In in Hd as [_ Hd].
  apply lower_alnum_char. exact Hd.
Qed.

Lemma large_image_step : forall filename size l,
  (fun '(filename, size) =>
      if is_image filename then
        if (1024 * 200 <? size)%N then warning filename (msg_large_image size) else ret tt
      else ret tt) (filename, size) l
  = (Ok tt, if is_image filename && (204800 <? size)%N
            then log_append l (VStr filename) (VStr (msg_large_image size)) else l).
Proof.
  intros. cbv beta iota. destruct (is_image filename); [|reflexivity].
  change (1024 * 200)%N with 204800%N. cbn [andb].
  destruct (204800 <? size)%N; reflexivity.
Qed.

(** [_log] round trip. *)
(** X1: [_log] appends the message to the list of its key and leaves every other key's list as it was; a log with each key once keeps each key once. *)
Theorem log_lookup_after_append : forall l k k' msg,
  messages_for k' (log_append l (VStr k) msg) =
    messages_for k' l ++ (if str_eqb k k' then [msg] else []) /\
  (NoDup (map fst l) -> NoDup (map fst (log_append l (VStr k) msg))).
Proof.
  intros l k k' msg. split.
  - apply messages_for_log_append.
  - apply log_append_nodup.
Qed.

(** X2: [_check_problem_name_uniqueness] logs under [_general_] that the names could not be checked when there is no source of Kattis names or it gives none; logs nothing when no problem name is among the Kattis names; otherwise logs one message listing, sorted and without repetition, exactly the problem names that are Kattis names; and when reading the names raises, it raises that exception with nothing logged. *)
Theorem name_uniqueness_report : forall problems src l,
  ((kattis_names src = Ok None \/ kattis_names src = Ok (Some [])) ->
     _check_problem_name_uniqueness problems src l =
     (Ok tt, log_append l (VStr (py "_general_")) (VStr msg_names_unchecked))) /\
  (forall names, kattis_names src = Ok (Some names) -> names <> [] ->
     (forall w, In w problems -> ~ In w names) ->
     _check_problem_name_uniqueness problems src l = (Ok tt, l)) /\
  (forall names w, kattis_names src = Ok (Some names) -> In w problems -> In w names ->
     exists L, _check_problem_name_uniqueness problems src l =
       (Ok tt, log_append l (VStr (py "_general_")) (VStr (msg_names_used L))) /\
       Sorted str_lt L /\ (forall x, In x L <-> In x problems /\ In x names)) /\
  (forall e, kattis_names src = Raise e ->
     _check_problem_name_uniqueness problems src l = (Raise e, l)).
Proof.
  intros problems src l. unfold _check_problem_name_uniqueness.
  assert (Hset : forall names, NoDup (set_inter (set_of problems) names) /\
            forall x, In x (set_inter (set_of problems) names) <-> In x problems /\ In x names).
  { intros names. split.
    - apply NoDup_filter. apply set_of_nodup.
    - intros x. rewrite in_set_inter, in_set_of. tauto. }
  split; [|split; [|split]].
  - intros [-> | ->]; reflexivity.
  - intros names Hn Hne Hdisj. rewrite Hn. destruct names as [|n0 ns]; [congruence|].
    destruct (sorted_set_strict _ (proj1 (Hset (n0 :: ns)))) as [_ Hin].
    destruct (sorted (set_inter (set_of problems) (n0 :: ns))) as [|x L] eqn:E;
      [reflexivity|].
    exfalso. assert (Hx : In x (x :: L)) by (left; reflexivity).
    apply Hin in Hx. apply (proj2 (Hset _)) in Hx as [Hx1 Hx2].
    exact (Hdisj x Hx1 Hx2).
  - intros names w Hn Hw1 Hw2. rewrite Hn. destruct names as [|n0 ns]; [destruct Hw2|].
    destruct (sorted_set_strict _ (proj1 (Hset (n0 :: ns)))) as [Hs Hin].
    exists (sorted (set_inter (set_of problems) (n0 :: ns))).
    split; [|split; [exact Hs|]].
    + destruct (sorted (set_inter (set_of problems) (n0 :: ns))) as [|x L] eqn:E;
        [|reflexivity].
      exfalso. assert (Hw : In w (set_inter (set_of problems) (n0 :: ns)))
        by (apply Hset; auto).
      apply Hin in Hw. destruct Hw.
    + intros x. rewrite Hin. apply Hset.
  - intros e ->. reflexivity.
Qed.

(** X5: [_check_problem_name_title] warns under the name exactly when the name differs from the lower-cased alphanumeric characters of the title; a name with a character outside [a-z0-9] is always warned about. *)
Theorem name_title_report : forall name title l,
  _check_problem_name_title name title l =
    (Ok tt, if str_eqb name (short_title title) then l
            else log_append l (VStr name) (VStr (msg_name_title name title))) /\
  (forall c, In c name -> is_lower_digit c = false ->
     _check_problem_name_title name title l =
     (Ok tt, log_append l (VStr name) (VStr (msg_name_title name title)))).
Proof.
  intros name title l.
  assert (H : _check_problem_name_title name title l =
    (Ok tt, if str_eqb name (short_title title) then l
            else log_append l (VStr name) (VStr (msg_name_title name title)))).
  { unfold _check_problem_name_title.
    destruct (str_eqb name (short_title title)); reflexivity. }
  split; [exact H|].
  intros c Hc Hl. rewrite H.
  destruct (str_eqb name (short_title title)) eqn:E; [|reflexivity].
  apply str_eqb_eq in E. rewrite E in Hc. apply short_title_chars in Hc. congruence.
Qed.

Lemma mapM_pure : forall {A} (f : A -> PY unit) (g : errors_log -> A -> errors_log) xs l,
  (forall x l, f x l = (Ok tt, g l x)) -> mapM_ f xs l = (Ok tt, fold_left g xs l).
Proof.
  intros A f g xs. induction xs as [|x xs IH]; intros l Hf; simpl; [reflexivity|].
  unfold bind. rewrite Hf. apply IH. exact Hf.
Qed.

(** X10: for distinct file names, [_check_large_images] never raises and logs, under each file name, one message exactly when the file has an image extension and is larger than 200 kB; other keys are untouched. *)
Theorem large_images_report : forall files l,
  NoDup (map fst files) ->
  fst (_check_large_images files l) = Ok tt /\
  (forall f size, In (f, size) files ->
     messages_for f (snd (_check_large_images files l)) =
     messages_for f l ++
       (if is_image f && (204800 <? size)%N then [VStr (msg_large_image size)] else [])) /\
  (forall f, ~ In f (map fst files) ->
     messages_for f (snd (_check_large_images files l)) = messages_for f l).
Proof.
  intros files l Hnd. unfold _check_large_images.
  rewrite (mapM_pure _ large_image_log) by (intros [fn sz] l'; apply large_image_step).
  cbn [fst snd]. split; [reflexivity|].
  revert l Hnd. induction files as [|[fn sz] files IH]; intros l Hnd.
  - split; [intros _ _ []|]. reflexivity.
  - inversion Hnd as [|? ? Hfn Hnd']; subst. cbn [fold_left].
    set (l1 := large_image_log l (fn, sz)).
    destruct (IH l1 Hnd') as (Hin & Hout).
    assert (Hl1 : forall f, messages_for f l1 = messages_for f l ++
              (if str_eqb fn f && is_image fn && (204800 <? sz)%N
               then [VStr (msg_large_image sz)] else [])).
    { intros f. subst l1. unfold large_image_log.
      destruct (is_image fn && (204800 <? sz)%N) eqn:Ec.
      - rewrite messages_for_log_append.
        destruct (str_eqb fn f); cbn [andb]; [rewrite Ec|]; reflexivity.
      - rewrite <- andb_assoc, Ec, andb_false_r, app_nil_r. reflexivity. }
    split.
    + intros f size [E | Hf].
      * injection E as <- <-. rewrite Hout by exact Hfn. rewrite Hl1, str_eqb_refl.
        reflexivity.
      * rewrite (Hin f size Hf). rewrite Hl1.
        destruct (str_eqb fn f) eqn:E; [|simpl; rewrite app_nil_r; reflexivity].
        apply str_eqb_eq in E. subst f. exfalso. apply Hfn.
        apply (in_map fst) in Hf. exact Hf.
    + intros f Hf. simpl in Hf. rewrite Hout by tauto. rewrite Hl1.
      destruct (str_eqb fn f) eqn:E; [|simpl; apply app_nil_r].
      apply str_eqb_eq in E. subst f. exfalso. apply Hf. left. reflexivity.
Qed.

(** ** [_check_submissions] *)

Lemma fast_pattern_eq : forall s,
  re_match fast_pattern s =
  match s with [] => false | a :: rest => ascii_eqb a "C"%char && negb (word_at rest 0) end.
Proof.
  intros [|a s]; [reflexivity|].
  unfold re_match, match_at, fast_pattern, opt, lit.
  destruct (ascii_eqb a "C"%char) eqn:Ea.
  2:{ cbn -[ascii_eqb is_word]. rewrite Ea.
      destruct (is_word a); reflexivity. }
  apply Ascii.eqb_eq in Ea. subst a.
  destruct s as [|b s]; [reflexivity|].
  destruct (ascii_eqb b "+"%char) eqn:Eb.
  2:{ cbn -[ascii_eqb is_word]. rewrite Eb. change (is_word "C"%char) with true.
      unfold boundary. cbn -[is_word]. change (is_word "C"%char) with true.
      destruct (is_word b); reflexivity. }
  apply Ascii.eqb_eq in Eb. subst b.
  destruct s as [|c s]; [reflexivity|].
  destruct (ascii_eqb c "+"%char) eqn:Ec.
  2:{ cbn -[ascii_eqb is_word]. rewrite Ec. reflexivity. }
  apply Ascii.eqb_eq in Ec. subst c.
  destruct s as [|d s]; [reflexivity|].
  cbn -[is_word]. change (is_word "C"%char) with true.
  unfold boundary. cbn -[is_word].
  change (is_word "C"%char) with true. change (is_word "+"%char) with false.
  destruct (is_word d); reflexivity.
Qed.

(** X11: the fast-language pattern of [_check_submissions] matches a language name exactly when it is [C] followed by the end of the name or a non-word character (so [C], [C++] and [C#] are fast). *)
Theorem fast_pattern_match : forall s,
  re_match fast_pattern s = true <->
  exists rest, s = "C"%char :: rest /\ word_at rest 0 = false.
Proof.
  intros s. rewrite fast_pattern_eq. destruct s as [|a rest].
  - split; [discriminate|]. intros (r & H & _). discriminate.
  - split.
    + intros H. apply andb_prop in H as [Ha Hr]. apply Ascii.eqb_eq in Ha. subst a.
      exists rest. split; [reflexivity|]. destruct (word_at rest 0); [discriminate|reflexivity].
    + intros (r & H & Hr). injection H as -> ->. rewrite Hr. reflexivity.
Qed.

Lemma with_verdict_cons : forall v t ss rest,
  with_verdict v ((t, ss) :: rest) = (if str_eqb t v then ss else []) ++ with_verdict v rest.
Proof. intros. unfold with_verdict. simpl. destruct (str_eqb t v); reflexivity. Qed.

Lemma count_submission_fold : forall t ss langs wa tle n,
  fold_left (count_submission t) ss (langs, wa, tle, n) =
  (fold_left (fun acc w => set_add w acc) (if str_eqb t (py "AC") then ss else []) langs,
   wa || (str_eqb t (py "WA") && existsb (fun _ => true) ss),
   tle || (str_eqb t (py "TLE") && existsb (fun _ => true) ss),
   n + length (if str_eqb t (py "AC") then ss else [])).
Proof.
  intros t ss. induction ss as [|x ss IH]; intros langs wa tle n.
  - destruct (str_eqb t (py "AC")); cbn [fold_left length existsb];
      rewrite ?andb_false_r, ?orb_false_r, ?Nat.add_0_r; reflexivity.
  - cbn [fold_left]. unfold count_submission at 2. rewrite IH.
    destruct (str_eqb t (py "AC")), (str_eqb t (py "WA")), (str_eqb t (py "TLE")), wa, tle;
      cbn [existsb orb andb length fold_left]; f_equal; lia.
Qed.

Lemma count_submissions_eq : forall submissions,
  count_submissions submissions =
  (set_of (with_verdict (py "AC") submissions),
   existsb (fun _ => true) (with_verdict (py "WA") submissions),
   existsb (fun _ => true) (with_verdict (py "TLE") submissions),
   length (with_verdict (py "AC") submissions)).
Proof.
  intros submissions. unfold count_submissions, set_of.
  assert (H : forall subs langs wa tle n,
    fold_left (fun acc '(sub_type, subs) => fold_left (count_submission sub_type) subs acc)
      subs (langs, wa, tle, n) =
    (fold_left (fun acc w => set_add w acc) (with_verdict (py "AC") subs) langs,
     wa || existsb (fun _ => true) (with_verdict (py "WA") subs),
     tle || existsb (fun _ => true) (with_verdict (py "TLE") subs),
     n + length (with_verdict (py "AC") subs))).
  { induction subs as [|[t ss] subs IH]; intros langs wa tle n.
    - simpl. rewrite !orb_false_r, Nat.add_0_r. reflexivity.
    - cbn [fold_left]. rewrite count_submission_fold, IH, !with_verdict_cons.
      rewrite fold_left_app, !existsb_app, length_app, !orb_assoc, Nat.add_assoc.
      destruct (str_eqb t (py "WA")), (str_eqb t (py "TLE")); cbn [andb existsb];
        reflexivity. }
  rewrite H. reflexivity.
Qed.

Lemma forallb_set_of : forall f l, forallb f (set_of l) = forallb f l.
Proof.
  intros f l. apply Bool.eq_iff_eq_true. rewrite !forallb_forall.
  split; intros H x Hx; apply H; apply in_set_of; exact Hx.
Qed.

(** X12: [_check_submissions] never raises and logs, under the short name and in this order, that there are no WA submissions, no TLE submissions, only one AC submission, and no slow accepted submission, each exactly when that holds of the submissions. *)
Theorem submissions_report : forall set_order shortname submissions l,
  _check_submissions set_order shortname submissions l =
  (Ok tt, fold_left (fun l msg => log_append l (VStr shortname) (VStr msg))
            ((match with_verdict (py "WA") submissions with
              | [] => [py "has no WA submissions"] | _ => [] end) ++
             (match with_verdict (py "TLE") submissions with
              | [] => [py "has no TLE submissions"] | _ => [] end) ++
             (if length (with_verdict (py "AC") submissions) =? 1
              then [py "has only one AC submission"] else []) ++
             (if forallb (re_match fast_pattern) (with_verdict (py "AC") submissions)
              then [msg_no_slow (join (py ", ")
                      (set_order (set_of (with_verdict (py "AC") submissions))))]
              else []))
            l).
Proof.
  intros set_order shortname submissions l. unfold _check_submissions.
  rewrite count_submissions_eq.
  assert (Hs : negb (existsb (fun lang => negb (re_match fast_pattern lang))
                        (set_of (with_verdict (py "AC") submissions)))
               = forallb (re_match fast_pattern) (with_verdict (py "AC") submissions)).
  { rewrite <- forallb_set_of. induction (set_of _) as [|x xs IH]; [reflexivity|].
    simpl. rewrite negb_orb, negb_involutive, IH. reflexivity. }
  rewrite Hs.
  destruct (with_verdict (py "WA") submissions), (with_verdict (py "TLE") submissions),
    (length (with_verdict (py "AC") submissions) =? 1),
    (forallb (re_match fast_pattern) (with_verdict (py "AC") submissions));
    reflexivity.
Qed.

(** ** [_check_problem] and [check_problems] *)

Lemma scalar_eqb_sym : forall a b, scalar_eqb a b = scalar_eqb b a.
Proof.
  intros [| x | x | x | x | x] [| y | y | y | y | y]; cbn [scalar_eqb]; try reflexivity.
  - destruct x, y; reflexivity.
  - apply Nat.eqb_sym.
  - apply Bool.eq_iff_eq_true. rewrite !str_eqb_eq. split; intros; subst; reflexivity.
Qed.

Ltac scalar_facts :=
  repeat match goal with
         | H : Bool.eqb _ _ = true |- _ => apply Bool.eqb_prop in H
         | H : Nat.eqb _ _ = true |- _ => apply Nat.eqb_eq in H
         | H : str_eqb _ _ = true |- _ => apply str_eqb_eq in H
         end.

Lemma scalar_eqb_trans : forall a b c,
  scalar_eqb a b = true -> scalar_eqb b c = true -> scalar_eqb a c = true.
Proof.
  intros [| x | x | x | x | x] [| y | y | y | y | y] [| z | z | z | z | z]; cbn [scalar_eqb];
    intros H1 H2; try discriminate; try reflexivity; scalar_facts; subst;
    try apply Nat.eqb_refl; try apply str_eqb_refl;
    try (destruct x, z; reflexivity);
    try (destruct y; reflexivity);
    try (destruct x, y; cbn in *; subst; reflexivity);
    try (destruct y, z; cbn in *; subst; reflexivity);
    try (destruct x, y, z; cbn in *; congruence);
    try (destruct z; reflexivity);
    try (destruct x, z; cbn in *; congruence).
Qed.

Lemma scalar_eqb_refl : forall v, hashable v = true -> scalar_eqb v v = true.
Proof.
  intros [| x | x | x | x | x] H; cbn; try discriminate; try reflexivity.
  - destruct x; reflexivity.
  - apply Nat.eqb_refl.
  - apply str_eqb_refl.
Qed.

Lemma count_field_log : forall metadata errors k problems acc l,
  snd (count_field metadata errors k problems acc l) = l.
Proof.
  induction problems as [|p ps IH]; intros acc l; simpl; [reflexivity|].
  destruct (str_in p errors); [apply IH|].
  unfold bind, dict_getitem. destruct (dict_lookup p metadata) as [md|]; [|reflexivity].
  unfold ret. destruct (py_getitem md k l) as [[v|e] l'] eqn:E.
  - assert (l' = l) by (destruct md; simpl in E; try (injection E; auto);
                        destruct (dict_lookup k entries); injection E; auto).
    subst l'. destruct (hashable v); [apply IH | reflexivity].
  - destruct md; simpl in E; try (injection E; intros; subst; reflexivity).
    destruct (dict_lookup k entries); injection E; intros; subst; reflexivity.
Qed.

Lemma getitem_field : forall metadata p k l,
  exists r, (md <- dict_getitem metadata p ;; py_getitem md k) l = (r, l) /\
    (forall v, r = Ok v <-> field_of metadata p k = Some v).
Proof.
  intros. unfold bind, dict_getitem, field_of.
  destruct (dict_lookup p metadata) as [md|].
  - unfold ret. destruct md; simpl; try (eexists; split; [reflexivity|]; split; congruence).
    destruct (dict_lookup k entries); eexists; (split; [reflexivity|]); split; congruence.
  - eexists. split; [reflexivity|]. split; congruence.
Qed.

Lemma count_field_good : forall metadata errors k problems acc l,
  (forall p, In p problems -> str_in p errors = false ->
     exists v, field_of metadata p k = Some v /\ hashable v = true) ->
  count_field metadata errors k problems acc l =
  (Ok (counter_of (field_values metadata errors k problems) acc), l).
Proof.
  induction problems as [|p ps IH]; intros acc l Hg; [reflexivity|].
  cbn [count_field field_values flat_map].
  destruct (str_in p errors) eqn:Ep.
  - apply IH. intros q Hq. apply Hg. right. exact Hq.
  - destruct (Hg p (or_introl eq_refl) Ep) as (v & Hv & Hh).
    destruct (getitem_field metadata p k l) as (r & Er & Hr).
    assert (r = Ok v) by (apply Hr; exact Hv). subst r.
    unfold bind at 1. unfold bind in Er.
    destruct (dict_getitem metadata p l) as [[md|e] l1] eqn:E1.
    + unfold bind. rewrite Er. rewrite Hh. rewrite Hv. cbn [app].
      unfold counter_of. cbn [fold_left]. apply IH.
      intros q Hq. apply Hg. right. exact Hq.
    + discriminate Er.
Qed.

Lemma counter_add_keys : forall v c,
  map fst (counter_add v c) =
  if existsb (fun k => scalar_eqb k v) (map fst c) then map fst c else map fst c ++ [v].
Proof.
  induction c as [|[k n] c IH]; [reflexivity|].
  cbn [counter_add map existsb fst]. destruct (scalar_eqb k v); [reflexivity|].
  cbn [map fst orb]. rewrite IH. destruct (existsb _ _); reflexivity.
Qed.

Lemma pw_neq_snoc : forall ks v,
  pw_neq ks -> (forall k, In k ks -> scalar_eqb k v = false) -> pw_neq (ks ++ [v]).
Proof.
  induction ks as [|k ks IH]; intros v Hp Hv; cbn.
  - split; [constructor | exact I].
  - destruct Hp as [Hf Hp]. split.
    + apply Forall_app. split; [exact Hf|]. constructor; [apply Hv; left; reflexivity | constructor].
    + apply IH; [exact Hp|]. intros k' Hk'. apply Hv. right. exact Hk'.
Qed.

Lemma counter_of_inv : forall vs acc seen,
  Forall (fun v => hashable v = true) vs ->
  counter_inv (map fst acc) seen ->
  counter_inv (map fst (counter_of vs acc)) (seen ++ vs).
Proof.
  induction vs as [|v vs IH]; intros acc seen Hh Hi.
  - rewrite app_nil_r. exact Hi.
  - inversion Hh as [|? ? Hv Hvs]; subst.
    unfold counter_of. cbn [fold_left]. fold (counter_of vs (counter_add v acc)).
    replace (seen ++ v :: vs) with ((seen ++ [v]) ++ vs) by (rewrite <- app_assoc; reflexivity).
    apply IH; [exact Hvs|].
    destruct Hi as (H1 & H2 & H3).
    rewrite counter_add_keys. destruct (existsb _ _) eqn:Ee.
    + apply existsb_exists in Ee. destruct Ee as (k0 & Hk0 & Hk0v).
      split; [|split].
      * intros k Hk. apply in_or_app. left. apply H1. exact Hk.
      * intros w Hw. apply in_app_or in Hw. destruct Hw as [Hw | [<- | []]].
        -- apply H2. exact Hw.
        -- exists k0. split; assumption.
      * exact H3.
    + assert (Hne : forall k, In k (map fst acc) -> scalar_eqb k v = false).
      { intros k Hk. destruct (scalar_eqb k v) eqn:E; [|reflexivity].
        assert (existsb (fun k => scalar_eqb k v) (map fst acc) = true)
          by (apply existsb_exists; exists k; split; assumption).
        congruence. }
      split; [|split].
      * intros k Hk. apply in_app_or in Hk. apply in_or_app.
        destruct Hk as [Hk | [<- | []]]; [left; apply H1; exact Hk | right; left; reflexivity].
      * intros w Hw. apply in_app_or in Hw. destruct Hw as [Hw | [<- | []]].
        -- destruct (H2 w Hw) as (k & Hk & Hkw). exists k. split; [apply in_or_app; left; exact Hk | exact Hkw].
        -- exists v. split; [apply in_or_app; right; left; reflexivity | apply scalar_eqb_refl; exact Hv].
      * apply pw_neq_snoc; assumption.
Qed.

Lemma counter_of_length : forall vs,
  Forall (fun v => hashable v = true) vs ->
  (1 < length (counter_of vs []) <->
   exists v1 v2, In v1 vs /\ In v2 vs /\ scalar_eqb v1 v2 = false).
Proof.
  intros vs Hh.
  destruct (counter_of_inv vs [] [] Hh) as (H1 & H2 & H3).
  { split; [|split]; [intros k [] | intros v [] | exact I]. }
  cbn [app] in H1, H2. rewrite <- (length_map fst).
  split.
  - destruct (map fst (counter_of vs [])) as [|k1 [|k2 ks]]; cbn; intros Hl; try lia.
    destruct H3 as [Hf _]. inversion Hf as [|? ? Hk12 _]; subst.
    exists k1, k2. split; [apply H1; left; reflexivity|].
    split; [apply H1; right; left; reflexivity | exact Hk12].
  - intros (v1 & v2 & Hv1 & Hv2 & Hne).
    destruct (H2 v1 Hv1) as (k1 & Hk1 & E1). destruct (H2 v2 Hv2) as (k2 & Hk2 & E2).
    destruct (map fst (counter_of vs [])) as [|k [|k' ks]]; cbn; try lia.
    + destruct Hk1.
    + destruct Hk1 as [<- | []]. destruct Hk2 as [<- | []].
      rewrite scalar_eqb_sym in E1.
      rewrite (scalar_eqb_trans _ _ _ E1 E2) in Hne. discriminate.
Qed.

Lemma in_field_values : forall metadata errors k problems v,
  In v (field_values metadata errors k problems) <->
  exists p, In p problems /\ str_in p errors = false /\ field_of metadata p k = Some v.
Proof.
  intros. unfold field_values. rewrite in_flat_map. split.
  - intros (p & Hp & Hv). destruct (str_in p errors) eqn:E; [destruct Hv|].
    destruct (field_of metadata p k) eqn:F; [|destruct Hv].
    destruct Hv as [<- | []]. exists p. auto.
  - intros (p & Hp & He & Hf). exists p. split; [exact Hp|]. rewrite He, Hf. left. reflexivity.
Qed.

Lemma count_field_raises : forall metadata errors k problems acc l,
  (exists p, In p problems /\ str_in p errors = false /\
     forall v, field_of metadata p k = Some v -> hashable v = false) ->
  exists e, count_field metadata errors k problems acc l = (Raise e, l).
Proof.
  induction problems as [|p ps IH]; intros acc l (q & Hq & He & Hb); [destruct Hq|].
  cbn [count_field].
  destruct (str_in p errors) eqn:Ep.
  - destruct Hq as [-> | Hq]; [congruence|]. apply IH. exists q. auto.
  - destruct (getitem_field metadata p k l) as (r & Er & Hr).
    unfold bind at 1. unfold bind in Er.
    destruct (dict_getitem metadata p l) as [[md|e] l1] eqn:E1.
    + unfold bind. rewrite Er.
      destruct r as [v|e]; [|eexists; reflexivity].
      destruct (hashable v) eqn:Hv.
      * destruct Hq as [<- | Hq].
        -- rewrite (Hb v (proj1 (Hr v) eq_refl)) in Hv. discriminate.
        -- apply IH. exists q. auto.
      * eexists. reflexivity.
    + injection Er as <- <-. eexists. reflexivity.
Qed.

Lemma try_except_ok : forall {A} (c : PY A) h l a l',
  c l = (Ok a, l') -> try_except c h l = (Ok a, l').
Proof. intros A c h l a l' E. unfold try_except. rewrite E. reflexivity. Qed.

Lemma try_except_raise : forall {A} (c : PY A) h l e l',
  c l = (Raise e, l') -> try_except c h l = h e l'.
Proof. intros A c h l e l' E. unfold try_except. rewrite E. reflexivity. Qed.

(** X14: the consistency check of a metadata field warns under [_general_] with more than one distinct value when two problems that did not fail disagree on it, logs nothing when they all agree, and warns that the field could not be checked when a problem that did not fail lacks it or has an unhashable value. *)
Lemma check_field_report : forall metadata errors problems k l,
  ((forall p, In p problems -> str_in p errors = false ->
      exists v, field_of metadata p k = Some v /\ hashable v = true) ->
   ((exists p1 p2 v1 v2, In p1 problems /\ str_in p1 errors = false /\
       In p2 problems /\ str_in p2 errors = false /\
       field_of metadata p1 k = Some v1 /\ field_of metadata p2 k = Some v2 /\
       scalar_eqb v1 v2 = false) ->
    exists values, 1 < length values /\
      check_field metadata errors problems k l =
      (Ok tt, log_append l (VStr (py "_general_")) (VStr (msg_multiple_values k values)))) /\
   ((forall p1 p2 v1 v2, In p1 problems -> str_in p1 errors = false ->
       In p2 problems -> str_in p2 errors = false ->
       field_of metadata p1 k = Some v1 -> field_of metadata p2 k = Some v2 ->
       scalar_eqb v1 v2 = true) ->
    check_field metadata errors problems k l = (Ok tt, l))) /\
  ((exists p, In p problems /\ str_in p errors = false /\
      forall v, field_of metadata p k = Some v -> hashable v = false) ->
   check_field metadata errors problems k l =
   (Ok tt, log_append l (VStr (py "_general_")) (VStr (msg_field_unchecked k)))).
Proof.
  intros metadata errors problems k l. split.
  - intros Hg.
    assert (Hh : Forall (fun v => hashable v = true) (field_values metadata errors k problems)).
    { apply Forall_forall. intros v Hv. apply in_field_values in Hv.
      destruct Hv as (p & Hp & He & Hf). destruct (Hg p Hp He) as (v' & Hf' & Hh').
      congruence. }
    pose proof (count_field_good metadata errors k problems [] l Hg) as Ec.
    pose proof (counter_of_length _ Hh) as Hlen.
    unfold check_field. split.
    + intros (p1 & p2 & v1 & v2 & Hp1 & He1 & Hp2 & He2 & Hf1 & Hf2 & Hne).
      assert (Hlt : 1 < length (counter_of (field_values metadata errors k problems) [])).
      { apply Hlen. exists v1, v2.
        split; [apply in_field_values; exists p1; auto|].
        split; [apply in_field_values; exists p2; auto | exact Hne]. }
      exists (counter_of (field_values metadata errors k problems) []). split; [exact Hlt|].
      apply try_except_ok. unfold bind. rewrite Ec.
      apply Nat.ltb_lt in Hlt. rewrite Hlt. reflexivity.
    + intros Hall. apply try_except_ok. unfold bind. rewrite Ec.
      destruct (1 <? _) eqn:Hlt; [|reflexivity].
      apply Nat.ltb_lt, Hlen in Hlt. destruct Hlt as (v1 & v2 & Hv1 & Hv2 & Hne).
      apply in_field_values in Hv1, Hv2.
      destruct Hv1 as (p1 & ? & ? & ?). destruct Hv2 as (p2 & ? & ? & ?).
      rewrite (Hall p1 p2 v1 v2) in Hne by assumption. discriminate.
  - intros Hb. destruct (count_field_raises metadata errors k problems [] l Hb) as [e Ec].
    unfold check_field. eapply eq_trans; [apply (try_except_raise _ _ _ e l)|reflexivity].
    unfold bind. rewrite Ec. reflexivity.
Qed.

(** X15: the loop of [check_problems] never raises, and its list of errors is exactly the problems whose check raised, in the given order. *)
Lemma check_each_errors : forall check_problem format_exc (fails : pystr -> bool),
  (forall p l, raised (fst (check_problem p l)) = fails p) ->
  forall problems metadata errors l,
  exists metadata' l',
    check_each check_problem format_exc problems metadata errors l =
    (Ok (metadata', errors ++ filter fails problems), l').
Proof.
  intros cp fe fails Hf. induction problems as [|p ps IH]; intros md errs l.
  - exists md, l. rewrite app_nil_r. reflexivity.
  - cbn [check_each filter]. specialize (Hf p l).
    unfold bind, try_except, ret, error, warning, call_warning, _log.
    destruct (cp p l) as [[v|e] l1] eqn:E; cbn in Hf; rewrite <- Hf.
    + cbn [fst snd]. apply IH.
    + cbn [fst snd]. replace (errs ++ p :: filter fails ps) with ((errs ++ [p]) ++ filter fails ps)
        by (rewrite <- app_assoc; reflexivity). apply IH.
Qed.

Lemma uniqueness_result : forall problems src l,
  match kattis_names src with
  | Raise e => _check_problem_name_uniqueness problems src l = (Raise e, l)
  | Ok _ => fst (_check_problem_name_uniqueness problems src l) = Ok tt
  end.
Proof.
  intros. unfold _check_problem_name_uniqueness.
  destruct (kattis_names src) as [[[|n ns]|]|e]; try reflexivity.
  destruct (sorted _); reflexivity.
Qed.

Lemma check_each_ok : forall cp fe problems metadata errors l,
  exists r l', check_each cp fe problems metadata errors l = (Ok r, l').
Proof.
  induction problems as [|p ps IH]; intros md errs l; [eexists _, _; reflexivity|].
  cbn [check_each]. unfold bind, try_except, ret, error, warning, call_warning, _log.
  destruct (cp p l) as [[v|e] l1]; apply IH.
Qed.

Lemma check_field_ok : forall metadata errors problems k l,
  exists l', check_field metadata errors problems k l = (Ok tt, l').
Proof.
  intros. unfold check_field, try_except, bind.
  destruct (count_field metadata errors k problems [] l) as [[c|e] l1].
  - destruct (1 <? length c); eexists; reflexivity.
  - eexists; reflexivity.
Qed.

Lemma mapM_ok : forall {A} (f : A -> PY unit),
  (forall x l, exists l', f x l = (Ok tt, l')) ->
  forall xs l, exists l', mapM_ f xs l = (Ok tt, l').
Proof.
  intros A f Hf. induction xs as [|x xs IH]; intros l; [eexists; reflexivity|].
  cbn [mapM_]. unfold bind. destruct (Hf x l) as [l1 E]. rewrite E. apply IH.
Qed.

(** X16: [check_problems] raises only when reading the Kattis names raises: then it raises that exception before anything is logged and before any problem is checked. Otherwise it never raises, whatever the problem checks do. *)
Theorem check_problems_raises_only_on_names : forall check_problem format_exc problems src l,
  (forall e, kattis_names src = Raise e ->
     check_problems check_problem format_exc problems src l = (Raise e, l)) /\
  ((exists names, kattis_names src = Ok names) ->
     fst (check_problems check_problem format_exc problems src l) = Ok tt).
Proof.
  intros. pose proof (uniqueness_result problems src l) as U. split.
  { intros e He. rewrite He in U. unfold check_problems, bind at 1. rewrite U. reflexivity. }
  intros [names Hn]. rewrite Hn in U. unfold check_problems, bind at 1.
  destruct (_check_problem_name_uniqueness problems src l) as [[[]|e] l1]; [|discriminate].
  unfold bind. destruct (check_each_ok check_problem format_exc problems [] [] l1) as (r & l2 & E).
  rewrite E. destruct (mapM_ok _ (check_field_ok (fst r) (snd r) problems) (map py ["source"%string; "source_url"%string; "license"%string]) l2) as [l3 E3].
  rewrite E3. reflexivity.
Qed.

Lemma dict_lookup_set_same : forall k v d, dict_lookup k (dict_set k v d) = Some v.
Proof.
  intros k v. induction d as [|[k' v'] d IH]; cbn [dict_set].
  - unfold dict_lookup. cbn. rewrite str_eqb_refl. reflexivity.
  - destruct (str_eqb k' k) eqn:E; unfold dict_lookup in *; cbn [find]; rewrite E;
      [reflexivity|exact IH].
Qed.

Lemma dict_lookup_set_other : forall k k2 v d, k2 <> k ->
  dict_lookup k (dict_set k2 v d) = dict_lookup k d.
Proof.
  intros k k2 v. induction d as [|[k' v'] d IH]; intros Hne; cbn [dict_set].
  - unfold dict_lookup. cbn. destruct (str_eqb k2 k) eqn:E; [apply str_eqb_eq in E; congruence|].
    reflexivity.
  - destruct (str_eqb k' k2) eqn:E.
    + apply str_eqb_eq in E. subst k'. unfold dict_lookup. cbn [find].
      destruct (str_eqb k2 k) eqn:E2; [apply str_eqb_eq in E2; congruence|]. reflexivity.
    + unfold dict_lookup in *. cbn [find]. destruct (str_eqb k' k); [reflexivity|].
      apply IH. exact Hne.
Qed.

Lemma dict_lookup_set_fold : forall v ps md p, In p ps ->
  dict_lookup p (fold_left (fun m q => dict_set q v m) ps md) = Some v.
Proof.
  intros v ps md p. induction ps as [|q ps IH] using rev_ind; intros Hin; [destruct Hin|].
  rewrite fold_left_app. cbn [fold_left].
  destruct (list_eq_dec ascii_dec q p) as [->|Hne]; [apply dict_lookup_set_same|].
  rewrite dict_lookup_set_other by exact Hne. apply IH.
  apply in_app_or in Hin as [H|[H|[]]]; [exact H|congruence].
Qed.

Lemma check_each_not_loaded : forall md subs stm img fe ps metadata errors l,
  check_each (_check_problem false md subs stm img) fe ps metadata errors l =
  (Ok (fold_left (fun m q => dict_set q (YDict []) m) ps metadata, errors), log_not_loaded ps l).
Proof.
  intros md subs stm img fe. induction ps as [|p ps IH]; intros metadata errors l; [reflexivity|].
  cbn [check_each]. unfold bind at 1. unfold try_except, _check_problem. cbn [negb].
  unfold bind at 2, bind at 1, error, warning, call_warning, _log, ret.
  rewrite IH. reflexivity.
Qed.

Lemma check_field_not_loaded : forall metadata ps k l,
  (forall p, In p ps -> dict_lookup p metadata = Some (YDict [])) ->
  check_field metadata [] ps k l =
  (Ok tt, match ps with
          | [] => l
          | _ => log_append l (VStr (py "_general_")) (VStr (msg_field_unchecked k))
          end).
Proof.
  intros metadata [|p ps] k l H; unfold check_field, try_except.
  - reflexivity.
  - cbn [count_field str_in]. unfold bind at 2, dict_getitem.
    rewrite (H p (or_introl eq_refl)). reflexivity.
Qed.

(** X13: without problemtools, [check_problems] logs that problemtools could not be loaded for every problem and then, when there is at least one problem, that each of [source], [source_url] and [license] could not be checked for consistency (unless reading the Kattis names raises first, which it passes on with nothing logged). *)
Theorem no_problemtools_report : forall md subs stm img fe problems src l,
  check_problems (_check_problem false md subs stm img) fe problems src l =
  match kattis_names src with
  | Raise e => (Raise e, l)
  | Ok _ =>
      (Ok tt,
       let l1 := log_not_loaded problems (snd (_check_problem_name_uniqueness problems src l)) in
       match problems with
       | [] => l1
       | _ => fold_left (fun l k => log_append l (VStr (py "_general_")) (VStr (msg_field_unchecked k)))
                (map py ["source"%string; "source_url"%string; "license"%string]) l1
       end)
  end.
Proof.
  intros. unfold check_problems, bind at 1.
  pose proof (uniqueness_result problems src l) as U.
  destruct (kattis_names src) as [n|e]; [|rewrite U; reflexivity].
  destruct (_check_problem_name_uniqueness problems src l) as [r0 l0] eqn:Eu.
  cbn in U. subst r0.
  unfold bind at 1. rewrite check_each_not_loaded. cbn [fst snd].
  assert (Hm : forall p, In p problems ->
    dict_lookup p (fold_left (fun m q => dict_set q (YDict []) m) problems []) = Some (YDict [])).
  { intros p Hp. apply dict_lookup_set_fold. exact Hp. }
  cbv zeta. cbn [map mapM_].
  unfold bind. rewrite !check_field_not_loaded by exact Hm.
  destruct problems; reflexivity.
Qed.

(** ** The reports of [_parse_for_tex_errors] *)

Lemma star_go_some : forall f rest i k,
  (forall j, k j <> None) -> star_go f rest i k <> None.
Proof.
  induction rest as [|c rest IH]; intros i k Hk; cbn [star_go]; [apply Hk|].
  destruct (f c); [|apply Hk].
  destruct (star_go f rest (S i) k) eqn:E; [discriminate|]. apply Hk.
Qed.

Lemma missing_math_re_eq : forall w,
  re_match missing_math_mode_re w = match w with [] => false | c :: _ => digit_dot_comma c end.
Proof.
  intros w. unfold re_match, match_at, missing_math_mode_re, plus. cbn [m Nat.eqb].
  destruct w as [|c w]; [reflexivity|]. cbn [nth_error].
  destruct (digit_dot_comma c); [|reflexivity].
  destruct (star_go _ _ _ _) eqn:E; [reflexivity|].
  exfalso. revert E. apply star_go_some. intros j. discriminate.
Qed.

Lemma check_plain_text_spec : forall spelling text,
  NoDup (misspelled_words (check_plain_text spelling text no_findings)) /\
  NoDup (missing_math_mode (check_plain_text spelling text no_findings)) /\
  incorrect_math (check_plain_text spelling text no_findings) = [] /\
  forall w,
  (In w (misspelled_words (check_plain_text spelling text no_findings)) <->
   truthy_dict spelling = true /\ In w (plain_words text) /\
   (forall d, spelling = Some d -> str_in w d = false) /\ starts_number w = false) /\
  (In w (missing_math_mode (check_plain_text spelling text no_findings)) <->
   truthy_dict spelling = true /\ In w (plain_words text) /\
   (forall d, spelling = Some d -> str_in w d = false) /\ starts_number w = true).
Proof.
  intros spelling text. unfold check_plain_text.
  destruct spelling as [d|].
  2:{ cbn. split; [constructor|]. split; [constructor|]. split; [reflexivity|].
       intros w. split; split; intros H; solve [destruct H | destruct H as [H _]; discriminate]. }
  destruct (truthy_dict (Some d)) eqn:Ht.
  2:{ cbn. split; [constructor|]. split; [constructor|]. split; [reflexivity|].
       intros w. split; split; intros H; solve [destruct H | destruct H as [H _]; discriminate]. }
  assert (G : forall ws st,
    NoDup (misspelled_words st) -> NoDup (missing_math_mode st) ->
    let st' := fold_left (fun st word =>
            if re_match missing_math_mode_re word
            then {| missing_math_mode := set_add word (missing_math_mode st);
                    misspelled_words := misspelled_words st;
                    incorrect_math := incorrect_math st |}
            else {| missing_math_mode := missing_math_mode st;
                    misspelled_words := set_add word (misspelled_words st);
                    incorrect_math := incorrect_math st |}) ws st in
    NoDup (misspelled_words st') /\ NoDup (missing_math_mode st') /\
    incorrect_math st' = incorrect_math st /\
    forall w, (In w (misspelled_words st') <->
               In w (misspelled_words st) \/ (In w ws /\ starts_number w = false)) /\
              (In w (missing_math_mode st') <->
               In w (missing_math_mode st) \/ (In w ws /\ starts_number w = true))).
  { induction ws as [|x ws IH]; intros st H1 H2; cbn [fold_left].
    - split; [exact H1|]. split; [exact H2|]. split; [reflexivity|]. intros w.
      split; split; intros H;
        solve [left; exact H | destruct H as [H | [[] _]]; exact H].
    - rewrite missing_math_re_eq. fold (starts_number x).
      destruct (starts_number x) eqn:Ex.
      + match goal with |- context [fold_left _ ws ?st0] =>
          destruct (IH st0) as (A1 & A2 & A3 & A4); [exact H1 | apply set_add_nodup; exact H2 |]
        end.
        cbn [misspelled_words missing_math_mode incorrect_math] in *.
        repeat split; auto; intros Hw; destruct (A4 w) as [B1 B2].
        * apply B1 in Hw. destruct Hw as [Hw | [Hw Hs]]; [left; exact Hw|].
          right. split; [right; exact Hw | exact Hs].
        * apply B1. destruct Hw as [Hw | [[<- | Hw] Hs]]; [left; exact Hw | congruence | right; auto].
        * apply B2 in Hw. destruct Hw as [Hw | [Hw Hs]].
          -- apply in_set_add in Hw. destruct Hw as [Hw | ->]; [left; exact Hw|].
             right. split; [left; reflexivity | exact Ex].
          -- right. split; [right; exact Hw | exact Hs].
        * apply B2. destruct Hw as [Hw | [[<- | Hw] Hs]].
          -- left. apply in_set_add. left. exact Hw.
          -- left. apply in_set_add. right. reflexivity.
          -- right. auto.
      + match goal with |- context [fold_left _ ws ?st0] =>
          destruct (IH st0) as (A1 & A2 & A3 & A4); [apply set_add_nodup; exact H1 | exact H2 |]
        end.
        cbn [misspelled_words missing_math_mode incorrect_math] in *.
        repeat split; auto; intros Hw; destruct (A4 w) as [B1 B2].
        * apply B1 in Hw. destruct Hw as [Hw | [Hw Hs]].
          -- apply in_set_add in Hw. destruct Hw as [Hw | ->]; [left; exact Hw|].
             right. split; [left; reflexivity | exact Ex].
          -- right. split; [right; exact Hw | exact Hs].
        * apply B1. destruct Hw as [Hw | [[<- | Hw] Hs]].
          -- left. apply in_set_add. left. exact Hw.
          -- left. apply in_set_add. right. reflexivity.
          -- right. auto.
        * apply B2 in Hw. destruct Hw as [Hw | [Hw Hs]]; [left; exact Hw|].
          right. split; [right; exact Hw | exact Hs].
        * apply B2. destruct Hw as [Hw | [[<- | Hw] Hs]]; [left; exact Hw | congruence | right; auto]. }
  destruct (G (set_diff (plain_words text) d) no_findings (NoDup_nil _) (NoDup_nil _))
    as (A1 & A2 & A3 & A4).
  cbv beta iota zeta.
  split; [exact A1|]. split; [exact A2|]. split; [rewrite A3; reflexivity|].
  intros w. destruct (A4 w) as [B1 B2].
  unfold set_diff in *; cbn [misspelled_words missing_math_mode no_findings] in *.
  split; split; intros Hw.
  - apply B1 in Hw. destruct Hw as [[] | [Hw Hs]]. apply filter_In in Hw.
    destruct Hw as [Hw Hn]. split; [reflexivity|]. split; [exact Hw|].
    split; [|exact Hs]. intros d' Hd. injection Hd as <-. destruct (str_in w d); [discriminate | reflexivity].
  - apply B1. right. destruct Hw as (_ & Hw & Hd & Hs). split; [|exact Hs].
    apply filter_In. split; [exact Hw|]. rewrite (Hd d eq_refl). reflexivity.
  - apply B2 in Hw. destruct Hw as [[] | [Hw Hs]]. apply filter_In in Hw.
    destruct Hw as [Hw Hn]. split; [reflexivity|]. split; [exact Hw|].
    split; [|exact Hs]. intros d' Hd. injection Hd as <-. destruct (str_in w d); [discriminate | reflexivity].
  - apply B2. right. destruct Hw as (_ & Hw & Hd & Hs). split; [|exact Hs].
    apply filter_In. split; [exact Hw|]. rewrite (Hd d eq_refl). reflexivity.
Qed.

Lemma insert_sorted_not_nil : forall w l, insert_sorted w l <> [].
Proof. intros w [|x l]; cbn; [discriminate|]. destruct (str_ltb w x); discriminate. Qed.

Lemma if_sorted : forall {A} l (a b : A), (if sorted l then a else b) = (if l then a else b).
Proof.
  intros A [|x l] a b; [reflexivity|]. cbn [sorted fold_right].
  destruct (insert_sorted x _) eqn:E; [exfalso; exact (insert_sorted_not_nil _ _ E) | reflexivity].
Qed.

Lemma check_math_text_fields : forall text st,
  misspelled_words (check_math_text text st) = misspelled_words st /\
  missing_math_mode (check_math_text text st) = missing_math_mode st /\
  incorrect_math (check_math_text text st) =
  fold_left (fun acc w => set_add w acc) (finditer incorrect_math_re text) (incorrect_math st).
Proof.
  intros text st. unfold check_math_text.
  generalize (finditer incorrect_math_re text) as ws. intros ws. revert st.
  induction ws as [|x ws IH]; intros st; [auto|]. cbn [fold_left].
  match goal with |- context [fold_left _ ws ?st1] => specialize (IH st1) end.
  cbn [misspelled_words missing_math_mode incorrect_math] in IH. exact IH.
Qed.

(** X9: the messages that [_parse_for_tex_errors] logs for a parsed document are at most three, in the order misspelled words, incorrect math, missing math mode, each listing a sorted set: the plain-text words missing from a non-empty dictionary that do not start with a digit, dot or comma; the matches of the incorrect-math pattern in the math text; and the missing words that do. *)
Theorem detect_report : forall spelling plain math,
  exists L1 L2 L3 : list pystr,
    detect spelling plain math =
      (if L1 then [] else ["misspelled words: "%string ++ repr_list L1]) ++
      (if L2 then [] else ["incorrect math: "%string ++ repr_list L2 ++
                           " (use `"%string ++ [bslash] ++
                           ",` (backslash comma) to separate thousands groups)"%string]) ++
      (if L3 then [] else ["missing math mode: "%string ++ repr_list L3]) /\
    Sorted str_lt L1 /\ Sorted str_lt L2 /\ Sorted str_lt L3 /\
    forall w,
    (In w L1 <-> truthy_dict spelling = true /\ In w (plain_words plain) /\
                 (forall d, spelling = Some d -> str_in w d = false) /\
                 starts_number w = false) /\
    (In w L2 <-> In w (finditer incorrect_math_re math)) /\
    (In w L3 <-> truthy_dict spelling = true /\ In w (plain_words plain) /\
                 (forall d, spelling = Some d -> str_in w d = false) /\
                 starts_number w = true).
Proof.
  intros spelling plain math.
  destruct (check_plain_text_spec spelling plain) as (N1 & N3 & E2 & H).
  set (st0 := check_plain_text spelling plain no_findings) in *.
  destruct (check_math_text_fields math st0) as (F1 & F3 & F2).
  rewrite E2 in F2. fold (set_of (finditer incorrect_math_re math)) in F2.
  exists (sorted (misspelled_words st0)), (sorted (set_of (finditer incorrect_math_re math))),
         (sorted (missing_math_mode st0)).
  destruct (sorted_set_strict _ N1) as [S1 I1].
  destruct (sorted_set_strict _ (set_of_nodup (finditer incorrect_math_re math))) as [S2 I2].
  destruct (sorted_set_strict _ N3) as [S3 I3].
  split.
  - unfold detect. fold st0. rewrite F1, F2, F3, !if_sorted. reflexivity.
  - split; [exact S1|]. split; [exact S2|]. split; [exact S3|].
    intros w. rewrite I1, I2, I3, in_set_of. destruct (H w) as [H1 H3].
    split; [exact H1|]. split; [reflexivity | exact H3].
Qed.

(** ** The language of a statement file *)

Lemma is_prefix_app : forall p s, is_prefix p s = true -> s = p ++ skipn (length p) s.
Proof.
  induction p as [|a p IH]; intros [|b s] H; cbn in *; try discriminate; try reflexivity.
  apply andb_prop in H as [H1 H2]. apply Ascii.eqb_eq in H1. subst b.
  f_equal. apply IH. exact H2.
Qed.

Lemma dollar_rest_len : forall r, dollar_rest r = true -> length r <= 1.
Proof. intros [|a [|b r]] H; cbn in *; try discriminate; lia. Qed.

Lemma tex_end_len : forall r, tex_end r = true -> 4 <= length r <= 5.
Proof.
  intros [|c rest] H; unfold tex_end in H; [discriminate|].
  apply andb_prop in H as [H H3]. apply andb_prop in H as [_ H2].
  apply is_prefix_app in H2. apply dollar_rest_len in H3.
  pose proof (f_equal (@length _) H2) as HL. rewrite length_app in HL.
  cbn [py list_ascii_of_string length] in HL. cbn [length]. lia.
Qed.

Lemma attempt_len : forall r g, attempt_rest r = Some g -> 11 <= length r <= 15.
Proof.
  intros r g H. unfold attempt_rest in H.
  destruct (is_prefix (py "problem") r) eqn:Ep; [|discriminate].
  apply is_prefix_app in Ep. cbn [length py list_ascii_of_string] in Ep.
  remember (skipn 7 r) as r7 eqn:E7.
  assert (Hr : length r = 7 + length r7) by (rewrite Ep, E7; cbn; reflexivity).
  assert (Hf : tex_end r7 = true -> 11 <= length r <= 15)
    by (intros Ht; apply tex_end_len in Ht; lia).
  cbv zeta in H.
  destruct r7 as [|d [|a [|b rest]]].
  1-3: destruct (tex_end _) eqn:Et in H; [apply Hf; exact Et | discriminate].
  destruct (ascii_eqb d "."%char && is_lower_az a && is_lower_az b && tex_end rest) eqn:Eg.
  - apply andb_prop in Eg as [_ Et]. apply tex_end_len in Et. cbn in Hr. lia.
  - destruct (tex_end (d :: a :: b :: rest)) eqn:Et in H; [apply Hf; exact Et | discriminate].
Qed.

Lemma attempt_head : forall r,
  match r with c :: _ => ascii_eqb c "p"%char | [] => false end = false ->
  attempt_rest r = None.
Proof.
  intros [|c r] H; [reflexivity|]. unfold attempt_rest. cbn [py list_ascii_of_string is_prefix].
  rewrite Ascii.eqb_sym. fold (ascii_eqb c "p"%char). rewrite H. reflexivity.
Qed.

Lemma try_down_none : forall s n,
  (forall i, i <= n -> attempt_rest (skipn i s) = None) -> try_down s n = None.
Proof.
  intros s. induction n as [|n IH]; intros H; cbn [try_down].
  - pose proof (H 0 (le_n 0)) as H0. cbn [skipn] in H0 |- *. rewrite H0. reflexivity.
  - rewrite (H (S n) (le_n _)). apply IH. intros i Hi. apply H. lia.
Qed.

Lemma try_down_first : forall s n N g,
  n <= N -> attempt_rest (skipn n s) = Some g ->
  (forall i, n < i <= N -> attempt_rest (skipn i s) = None) ->
  try_down s N = Some g.
Proof.
  intros s n N g. induction N as [|N IH]; intros Hn Ha Hi.
  - assert (n = 0) by lia. subst n. cbn [skipn] in Ha. cbn [try_down skipn]. rewrite Ha. reflexivity.
  - destruct (Nat.eq_dec n (S N)) as [-> | Hne].
    + cbn [try_down]. rewrite Ha. reflexivity.
    + cbn [try_down]. rewrite (Hi (S N)) by lia. apply IH; [lia | exact Ha |].
      intros i Hi'. apply Hi. lia.
Qed.

Lemma line_len_app : forall dir t,
  ~ In newline dir -> line_len (dir ++ t) = length dir + line_len t.
Proof.
  induction dir as [|c dir IH]; intros t H; [reflexivity|].
  cbn [app line_len length]. destruct (ascii_eqb c newline) eqn:E.
  - exfalso. apply H. left. apply Ascii.eqb_eq in E. exact E.
  - rewrite IH; [reflexivity|]. intros Hin. apply H. right. exact Hin.
Qed.

Lemma skipn_app_ge : forall (dir t : pystr) k, skipn (length dir + k) (dir ++ t) = skipn k t.
Proof. induction dir as [|c dir IH]; intros t k; [reflexivity|]. cbn. apply IH. Qed.

Lemma lower_az_not_nl : forall a, is_lower_az a = true -> ascii_eqb a newline = false.
Proof.
  intros a H. destruct (ascii_eqb a newline) eqn:E; [|reflexivity].
  apply Ascii.eqb_eq in E. subst a. discriminate.
Qed.

Lemma skipn_app_len : forall (dir t : pystr), skipn (length dir) (dir ++ t) = t.
Proof. intros. rewrite <- (Nat.add_0_r (length dir)). apply skipn_app_ge. Qed.

Lemma attempt_none_len : forall r, (length r < 11 \/ 15 < length r) -> attempt_rest r = None.
Proof.
  intros r H. destruct (attempt_rest r) eqn:E; [|reflexivity].
  apply attempt_len in E. lia.
Qed.

Lemma skipn_head_not_p : forall k (x : pystr), (forall c, In c x -> c <> "p"%char) ->
  match skipn k x with c :: _ => ascii_eqb c "p"%char | [] => false end = false.
Proof.
  intros k x H. destruct (skipn k x) as [|c r] eqn:E; [reflexivity|].
  destruct (ascii_eqb c "p"%char) eqn:Ec; [|reflexivity].
  apply Ascii.eqb_eq in Ec. subst c. exfalso. apply (H "p"%char); [|reflexivity].
  rewrite <- (firstn_skipn k x). apply in_or_app. right. rewrite E. left. reflexivity.
Qed.

Lemma attempt_shifted : forall (x t : pystr), x <> [] ->
  is_prefix (py "problem") t = true -> length x < 4 -> attempt_rest (x ++ t) = None.
Proof.
  intros x t Hx Ht Hl. unfold attempt_rest.
  destruct (is_prefix (py "problem") (x ++ t)) eqn:E; [|reflexivity]. exfalso.
  apply is_prefix_app in E. apply is_prefix_app in Ht. rewrite Ht in E.
  cbn [py list_ascii_of_string length app] in E.
  destruct x as [|c1 [|c2 [|c3 [|c4 x]]]]; cbn in Hl; try lia; [congruence| | |];
    cbn [app] in E; injection E; intros; discriminate.
Qed.

(** X7: in [_check_statement], for a directory path without a newline, [problem.tex] has language [en], [problem.xy.tex] with two lower-case letters has language [xy], and any other infix between [problem.] and [.tex] (without a [p]) makes the file skipped. *)
Theorem statement_language_report : forall dir,
  ~ In newline dir ->
  statement_language (dir ++ py "problem.tex") = Some (py "en") /\
  (forall a b, is_lower_az a = true -> is_lower_az b = true ->
     statement_language (dir ++ py "problem." ++ [a; b] ++ py ".tex") = Some [a; b]) /\
  (forall l, (forall c, In c l -> c <> "p"%char) ->
     ~ (exists a b, l = [a; b] /\ is_lower_az a = true /\ is_lower_az b = true) ->
     statement_language (dir ++ py "problem." ++ l ++ py ".tex") = None).
Proof.
  intros dir Hdir. unfold statement_language, statement_match. split; [|split].
  - rewrite line_len_app by exact Hdir.
    rewrite (try_down_first _ (length dir) _ None); [reflexivity | lia | |].
    + rewrite skipn_app_len. reflexivity.
    + intros i Hi. replace i with (length dir + (i - length dir)) by lia.
      rewrite skipn_app_ge. apply attempt_none_len. rewrite length_skipn.
      cbn [py list_ascii_of_string length]. lia.
  - intros a b Ha Hb. rewrite line_len_app by exact Hdir.
    assert (Hll : line_len (py "problem." ++ [a; b] ++ py ".tex") = 14).
    { rewrite <- (app_nil_r (py "problem." ++ [a; b] ++ py ".tex")).
      rewrite line_len_app; [cbn; reflexivity|].
      assert (Ha' := lower_az_not_nl a Ha). assert (Hb' := lower_az_not_nl b Hb).
      intros Hin. cbn [py list_ascii_of_string app In] in Hin.
      repeat (destruct Hin as [Hin | Hin];
              [try (subst; discriminate); try (rewrite Hin, Ascii.eqb_refl in *; discriminate)|]).
      destruct Hin. }
    rewrite Hll.
    rewrite (try_down_first _ (length dir) _ (Some [a; b])); [reflexivity | lia | |].
    + rewrite skipn_app_len. unfold attempt_rest. simpl. rewrite Ha, Hb. reflexivity.
    + intros i Hi. replace i with (length dir + (i - length dir)) by lia.
      rewrite skipn_app_ge.
      assert (H4 : i - length dir < 4 \/ 4 <= i - length dir) by lia.
      destruct H4 as [H4 | H4].
      * apply attempt_head.
        destruct (i - length dir) as [|[|[|[|k]]]] eqn:Ek; try lia; reflexivity.
      * apply attempt_none_len. rewrite length_skipn, !length_app.
        cbn [py list_ascii_of_string length]. lia.
  - intros l Hp Hl. rewrite try_down_none; [reflexivity|]. intros i _.
    assert (Hi : i < length dir \/ length dir <= i) by lia. destruct Hi as [Hi | Hi].
    + rewrite skipn_app. replace (i - length dir) with 0 by lia. cbn [skipn].
      assert (Hx : skipn i dir <> []).
      { intros E. apply (f_equal (@length _)) in E. rewrite length_skipn in E. cbn in E. lia. }
      destruct (Nat.lt_ge_cases (length (skipn i dir)) 4) as [Hs | Hs].
      * apply attempt_shifted; [exact Hx | reflexivity | exact Hs].
      * apply attempt_none_len. right. rewrite !length_app. cbn. lia.
    + replace i with (length dir + (i - length dir)) by lia. rewrite skipn_app_ge.
      destruct (i - length dir) as [|k].
      * destruct l as [|a [|b [|c [|d l]]]].
        -- reflexivity.
        -- unfold attempt_rest. simpl. rewrite ?andb_false_r, ?andb_true_r, ?andb_false_l.
           reflexivity.
        -- unfold attempt_rest. simpl. rewrite ?andb_false_r, ?andb_true_r, ?andb_false_l.
           destruct (is_lower_az a) eqn:Ea, (is_lower_az b) eqn:Eb; try reflexivity.
           exfalso. apply Hl. exists a, b. auto.
        -- unfold attempt_rest. simpl. rewrite ?andb_false_r, ?andb_true_r, ?andb_false_l.
           reflexivity.
        -- apply attempt_none_len. right. cbn [skipn]. rewrite !length_app. cbn. lia.
      * apply attempt_head. cbn [py list_ascii_of_string app skipn].
        apply skipn_head_not_p. intros c Hc.
        repeat (destruct Hc as [<- | Hc]; [discriminate|]).
        apply in_app_or in Hc. destruct Hc as [Hc | Hc]; [exact (Hp c Hc)|].
        repeat (destruct Hc as [<- | Hc]; [discriminate|]). destruct Hc.
Qed.

(** ** [find_problem_directories] *)

Lemma take_while_app : forall f s t,
  (forall c, In c s -> f c = true) -> take_while f (s ++ t) = s ++ take_while f t.
Proof.
  intros f. induction s as [|c s IH]; intros t H; [reflexivity|].
  cbn. rewrite (H c (or_introl eq_refl)). f_equal. apply IH. intros x Hx. apply H. right. exact Hx.
Qed.

Lemma not_slash_all : forall name, ~ In slash name ->
  forall c, In c (rev name) -> negb (ascii_eqb c slash) = true.
Proof.
  intros name H c Hc. apply in_rev in Hc.
  destruct (ascii_eqb c slash) eqn:E; [|reflexivity].
  apply Ascii.eqb_eq in E. subst c. contradiction.
Qed.

Lemma basename_join : forall wd name, plain_name name -> basename (path_join wd name) = name.
Proof.
  intros wd name [Hne Hs]. pose proof (not_slash_all name Hs) as Hall.
  destruct name as [|c rest] eqn:En; [congruence|]. rewrite <- En in *.
  assert (Hc : ascii_eqb c slash = false).
  { destruct (ascii_eqb c slash) eqn:E; [|reflexivity]. apply Ascii.eqb_eq in E. subst.
    exfalso. apply Hs. left. reflexivity. }
  unfold path_join. rewrite En at 1. rewrite Hc.
  unfold basename.
  destruct (rev wd) as [|x rw] eqn:Ew.
  - rewrite <- (app_nil_r (rev name)), take_while_app by exact Hall. cbn.
    rewrite app_nil_r, rev_involutive. reflexivity.
  - destruct (ascii_eqb x slash) eqn:Ex.
    + rewrite rev_app_distr, Ew, take_while_app by exact Hall. cbn. rewrite Ex. cbn.
      rewrite app_nil_r, rev_involutive. reflexivity.
    + rewrite !rev_app_distr, <- app_assoc, take_while_app by exact Hall.
      cbn. rewrite ?Ascii.eqb_refl. cbn. rewrite app_nil_r, rev_involutive. reflexivity.
Qed.

Lemma str_eqb_len : forall s t, length s <> length t -> str_eqb s t = false.
Proof.
  intros s t H. destruct (str_eqb s t) eqn:E; [|reflexivity].
  apply str_eqb_eq in E. subst. contradiction.
Qed.

Lemma join_not_wd : forall wd name, plain_name name -> str_eqb (path_join wd name) wd = false.
Proof.
  intros wd name [Hne Hs]. apply str_eqb_len.
  destruct name as [|c rest]; [congruence|].
  unfold path_join.
  destruct (ascii_eqb c slash) eqn:Hc.
  { apply Ascii.eqb_eq in Hc. subst. exfalso. apply Hs. left. reflexivity. }
  destruct (rev wd) as [|x rw] eqn:Ew.
  - apply (f_equal (@length _)) in Ew. rewrite length_rev in Ew. cbn in *. lia.
  - destruct (ascii_eqb x slash); rewrite !length_app; cbn; lia.
Qed.

Lemma walk_child : forall wd name files subs acc, plain_name name ->
  walk_find wd (path_join wd name) (Dir files subs) acc =
  acc ++ (if str_in (py "problem.yaml") files then [name] else []).
Proof.
  intros wd name files subs acc Hn. cbn [walk_find].
  rewrite join_not_wd by exact Hn. cbn [negb].
  destruct (str_in _ files); [rewrite basename_join by exact Hn; reflexivity | rewrite app_nil_r; reflexivity].
Qed.

Lemma walk_children : forall wd subs acc,
  (forall name sub, In (name, sub) subs -> plain_name name) ->
  fold_left (fun acc '(name, sub) => walk_find wd (path_join wd name) sub acc) subs acc =
  acc ++ map fst (filter (fun '(_, sub) => has_problem_yaml sub) subs).
Proof.
  intros wd. induction subs as [|[name [fs ss]] subs IH]; intros acc H; cbn [fold_left filter].
  - rewrite app_nil_r. reflexivity.
  - rewrite walk_child by (apply (H name (Dir fs ss)); left; reflexivity).
    rewrite IH by (intros n s Hin; apply (H n s); right; exact Hin).
    cbn [has_problem_yaml]. destruct (str_in _ fs); cbn; rewrite <- app_assoc; reflexivity.
Qed.

(** X4: [find_problem_directories] returns, sorted, the base name of [wd] when [wd] holds [problem.yaml] and the name of every direct subdirectory that holds [problem.yaml]; deeper directories are never reported. *)
Theorem find_problem_directories_report : forall wd files subs,
  (forall name sub, In (name, sub) subs -> plain_name name) ->
  Sorted str_le (find_problem_directories wd (Dir files subs)) /\
  Permutation (find_problem_directories wd (Dir files subs))
    ((if str_in (py "problem.yaml") files then [basename wd] else []) ++
     map fst (filter (fun '(_, sub) => has_problem_yaml sub) subs)).
Proof.
  intros wd files subs H. unfold find_problem_directories. split; [apply sorted_sorted|].
  rewrite sorted_perm. cbn [walk_find]. rewrite str_eqb_refl. cbn [negb].
  rewrite walk_children by exact H. reflexivity.
Qed.

(** ** [_check_metadata_recursive] on conforming metadata *)

(** X6: [_check_metadata_recursive] logs nothing on metadata whose keys are all in the defaults, at every nesting level, and none of whose full keys is an unusual setting. *)
Theorem metadata_clean_no_findings : forall data problem default path l,
  md_clean data default path ->
  check_metadata_recursive problem data default path l = (Ok tt, l).
Proof.
  intros data. induction data as [es Hall | y Hy] using yaml_dict_ind;
    intros problem default path l Hc.
  - destruct default as [| | | | | des]; try destruct Hc.
    cbn [check_metadata_recursive].
    induction es as [|[k v] es IHes]; [reflexivity|].
    inversion Hall as [|? ? Hv_ind Hall']; subst. cbn [snd] in Hv_ind.
    destruct Hc as [(Hw & d & Hd & Hv) Hes].
    unfold bind at 1, md_key_step. rewrite Hw. unfold bind, py_contains, ret. rewrite Hd.
    destruct v as [| | | | | ves]; try (apply IHes; assumption).
    unfold py_getitem. rewrite Hd. unfold ret.
    rewrite (Hv_ind problem d (full_key_of path k) l Hv). apply IHes; assumption.
  - destruct y; try (exfalso; exact (Hy _ eq_refl)); cbn in Hc; destruct Hc.
Qed.

(** ** [display_warnings_errors] *)

Lemma report_go_items : forall fmt l last ks,
  filter (fun x => negb (is_header x)) (report_go fmt l last ks) =
  flat_map (fun k => map (item_line fmt k) (messages_for k l)) ks.
Proof.
  intros fmt l last ks. revert last. induction ks as [|k ks IH]; intros last; [reflexivity|].
  cbn [report_go flat_map]. rewrite !filter_app, IH.
  assert (Hi : forall ms, filter (fun x => negb (is_header x)) (map (item_line fmt k) ms) =
                          map (item_line fmt k) ms).
  { induction ms as [|e ms IHm]; [reflexivity|]. cbn [map filter].
    rewrite IHm. reflexivity. }
  rewrite Hi. destruct (match last with Some p => _ | None => false end); reflexivity.
Qed.

Lemma set_of_nodup_id : forall l, NoDup l -> set_of l = l.
Proof.
  intros l Hl. unfold set_of.
  assert (H : forall l acc, NoDup (acc ++ l) ->
                fold_left (fun acc w => set_add w acc) l acc = acc ++ l).
  { induction l0 as [|x l0 IH]; intros acc Hn; cbn [fold_left]; [rewrite app_nil_r; reflexivity|].
    unfold set_add at 2.
    destruct (str_in x acc) eqn:E.
    - exfalso. apply str_in_iff in E. apply NoDup_remove_2 in Hn. apply Hn.
      apply in_or_app. left. exact E.
    - rewrite IH; [rewrite <- app_assoc; reflexivity|]. rewrite <- app_assoc. exact Hn. }
  apply H. exact Hl.
Qed.

Lemma keys_of_string_log : forall sl, keys_of (string_log sl) = map fst sl.
Proof.
  unfold keys_of, string_log. induction sl as [|[k ms] sl IH]; [reflexivity|].
  cbn [map flat_map fst app]. rewrite IH. reflexivity.
Qed.

Lemma messages_for_string_log : forall sl k ms,
  NoDup (map fst sl) -> In (k, ms) sl -> messages_for k (string_log sl) = ms.
Proof.
  induction sl as [|[k' ms'] sl IH]; intros k ms Hn Hin; [destruct Hin|].
  unfold messages_for. cbn [string_log map find pyval_eqb].
  inversion Hn as [|? ? Hk Hn']; subst.
  destruct Hin as [Heq | Hin].
  - injection Heq as -> ->. rewrite str_eqb_refl. reflexivity.
  - destruct (str_eqb k' k) eqn:E.
    + apply str_eqb_eq in E. subst k'. exfalso. apply Hk.
      apply (in_map fst) in Hin. exact Hin.
    + apply IH; assumption.
Qed.

(** X3: for a log whose keys are distinct strings, [display_warnings_errors] writes the keys in sorted order, each once, and under them every logged message exactly once, in the order logged for its key. *)
Theorem display_report : forall fmt sl,
  NoDup (map fst sl) ->
  Sorted str_lt (sorted (map fst sl)) /\
  filter (fun x => negb (is_header x)) (display_lines fmt (string_log sl)) =
    flat_map (fun k => map (item_line fmt k) (messages_for k (string_log sl)))
      (sorted (map fst sl)) /\
  Permutation (filter (fun x => negb (is_header x)) (display_lines fmt (string_log sl)))
    (flat_map (fun '(k, ms) => map (item_line fmt k) ms) sl).
Proof.
  intros fmt sl Hn.
  destruct (sorted_set_strict _ Hn) as [Hs _].
  assert (Hd : filter (fun x => negb (is_header x)) (display_lines fmt (string_log sl)) =
    flat_map (fun k => map (item_line fmt k) (messages_for k (string_log sl)))
      (sorted (map fst sl))).
  { unfold display_lines. rewrite report_go_items, keys_of_string_log, set_of_nodup_id by exact Hn.
    reflexivity. }
  split; [exact Hs|]. split; [exact Hd|]. rewrite Hd.
  rewrite (Permutation_flat_map _ (sorted_perm (map fst sl))).
  assert (G : forall sl', incl sl' sl ->
    flat_map (fun k => map (item_line fmt k) (messages_for k (string_log sl))) (map fst sl') =
    flat_map (fun '(k, ms) => map (item_line fmt k) ms) sl').
  { induction sl' as [|[k ms] sl' IH]; intros Hi; [reflexivity|].
    cbn [map fst flat_map]. rewrite IH by (intros x Hx; apply Hi; right; exact Hx).
    rewrite (messages_for_string_log sl k ms Hn) by (apply Hi; left; reflexivity).
    reflexivity. }
  rewrite G by (intros x Hx; exact Hx). reflexivity.
Qed.

(** ** The loop of [_check_statement] *)

Lemma check_statement_go_app : forall problem b pre post st l st1 l1,
  check_statement_go problem b pre st l = (Ok st1, l1) ->
  check_statement_go problem b (pre ++ post) st l = check_statement_go problem b post st1 l1.
Proof.
  intros problem b. induction pre as [|[[f p] ls] pre IH]; intros post st l st1 l1 H.
  - cbn in H. inversion H. reflexivity.
  - cbn [app check_statement_go] in *. destruct (statement_language f) as [lang|].
    + destruct (lookup_dictionary lang st) as [d st2].
      unfold bind in *. destruct (check_statement_file problem f _ b p ls l) as [[[]|e] l2].
      * apply IH. exact H.
      * discriminate.
    + apply IH. exact H.
Qed.

(** X8: when a statement file whose name matches cannot be parsed (plasTeX loaded), [_check_statement] raises a [TypeError] right after the files before it: the files after it are not checked and their messages are never logged. *)
Theorem statement_parse_failure_stops : forall problem pre filename e lines post st l st1 l1,
  check_statement_go problem true pre st l = (Ok st1, l1) ->
  statement_language filename <> None ->
  _check_statement problem true (pre ++ (filename, ParseRaises e, lines) :: post) st l =
  (Raise (TypeError (py "<lambda>() takes 2 positional arguments")), l1).
Proof.
  intros problem pre filename e lines post st l st1 l1 Hpre Hlang.
  unfold _check_statement. rewrite (check_statement_go_app _ _ _ _ _ _ _ _ Hpre).
  cbn [check_statement_go]. destruct (statement_language filename) as [lang|]; [|congruence].
  destruct (lookup_dictionary lang st1) as [d st2]. reflexivity.
Qed.

Lemma statement_parse_failure_stops_witness :
  let pre := [(py "p/problem_statement/problem.tex", Parsed (Text (py "")), [py "ok"])] in
  let f := py "p/problem_statement/problem.sv.tex" in
  let post := [(py "p/problem_statement/problem.de.tex", Parsed (Text (py "")), [py "..."])] in
  check_statement_go (py "p") true pre ([], []) [] = (Ok ([], []), []) /\
  statement_language f <> None /\
  _check_statement (py "p") true (pre ++ (f, ParseRaises (KeyError (py "x")), []) :: post) ([], []) [] =
  (Raise (TypeError (py "<lambda>() takes 2 positional arguments")), []).
Proof.
  cbv zeta. split; [vm_compute; reflexivity|]. split; [vm_compute; discriminate|].
  apply (statement_parse_failure_stops _ _ _ _ _ _ _ _ ([], []) []).
  - vm_compute. reflexivity.
  - vm_compute. discriminate.
Defined.

(** ** Concrete instances *)

Lemma str_nodupb_NoDup : forall l, str_nodupb l = true -> NoDup l.
Proof.
  induction l as [|w l IH]; intros H; [constructor|].
  cbn in H. apply andb_prop in H as [H1 H2]. constructor; [|exact (IH H2)].
  intros Hin. apply str_in_iff in Hin. rewrite Hin in H1. discriminate.
Qed.

Lemma not_in_chars : forall c s, existsb (fun x => ascii_eqb x c) s = false -> ~ In c s.
Proof.
  intros c s H Hin. assert (E : existsb (fun x => ascii_eqb x c) s = true).
  { apply existsb_exists. exists c. split; [exact Hin|apply Ascii.eqb_refl]. }
  congruence.
Qed.

Lemma large_images_report_witness :
  let files := [(py "p/problem_statement/big.png", 300000%N);
                (py "p/problem_statement/notes.txt", 999999%N)] in
  NoDup (map fst files) /\
  messages_for (py "p/problem_statement/big.png") (snd (_check_large_images files [])) =
    [VStr (msg_large_image 300000%N)].
Proof.
  cbv zeta. assert (H : NoDup (map fst [(py "p/problem_statement/big.png", 300000%N);
                (py "p/problem_statement/notes.txt", 999999%N)])).
  { apply str_nodupb_NoDup. vm_compute. reflexivity. }
  split; [exact H|].
  destruct (large_images_report _ [] H) as (_ & Hf & _).
  rewrite (Hf _ _ (or_introl eq_refl)). vm_compute. reflexivity.
Defined.

Lemma check_each_errors_witness :
  let cp := fun p => if str_eqb p (py "bad") then raise (KeyError p) else ret YNone in
  (forall p l, raised (fst (cp p l)) = str_eqb p (py "bad")) /\
  exists metadata' l',
    check_each cp (fun _ => py "Traceback") [py "ok"; py "bad"; py "fine"] [] [] [] =
    (Ok (metadata', [] ++ filter (fun p => str_eqb p (py "bad")) [py "ok"; py "bad"; py "fine"]), l').
Proof.
  cbv zeta.
  assert (H : forall p (l : errors_log),
    raised (fst ((fun p => if str_eqb p (py "bad") then raise (KeyError p) else ret YNone) p l)) =
    str_eqb p (py "bad")).
  { intros p l. cbv beta. destruct (str_eqb p (py "bad")); reflexivity. }
  split; [exact H|]. exact (check_each_errors _ _ _ H _ _ _ _).
Defined.

Lemma statement_language_report_witness :
  let dir := py "kattis/hello/problem_statement/" in
  ~ In newline dir /\
  statement_language (dir ++ py "problem.tex") = Some (py "en") /\
  statement_language (dir ++ py "problem." ++ py "sv" ++ py ".tex") = Some (py "sv") /\
  statement_language (dir ++ py "problem." ++ py "EN" ++ py ".tex") = None.
Proof.
  cbv zeta.
  assert (H : ~ In newline (py "kattis/hello/problem_statement/")).
  { apply not_in_chars. vm_compute. reflexivity. }
  destruct (statement_language_report _ H) as (H1 & H2 & H3).
  split; [exact H|]. split; [exact H1|]. split.
  - exact (H2 "s"%char "v"%char eq_refl eq_refl).
  - apply H3.
    + intros c [<-|[<-|[]]]; discriminate.
    + intros (a & b & E & Ha & Hb). injection E as <- <-. discriminate.
Defined.

Lemma find_problem_directories_report_witness :
  let subs := [(py "hello", Dir [py "problem.yaml"] []);
               (py "notes", Dir [py "README"] [(py "old", Dir [py "problem.yaml"] [])]);
               (py "apple", Dir [py "problem.yaml"; py "data"] [])] in
  (forall name sub, In (name, sub) subs -> plain_name name) /\
  Sorted str_le (find_problem_directories (py ".") (Dir [] subs)) /\
  Permutation (find_problem_directories (py ".") (Dir [] subs))
    ((if str_in (py "problem.yaml") [] then [basename (py ".")] else []) ++
     map fst (filter (fun '(_, sub) => has_problem_yaml sub) subs)).
Proof.
  cbv zeta.
  assert (H : forall name sub,
    In (name, sub) [(py "hello", Dir [py "problem.yaml"] []);
                    (py "notes", Dir [py "README"] [(py "old", Dir [py "problem.yaml"] [])]);
                    (py "apple", Dir [py "problem.yaml"; py "data"] [])] ->
    plain_name name).
  { intros name sub Hin.
    destruct Hin as [E|[E|[E|[]]]]; injection E as <- <-;
      (split; [discriminate|apply not_in_chars; vm_compute; reflexivity]). }
  split; [exact H|]. exact (find_problem_directories_report _ _ _ H).
Defined.

Lemma metadata_clean_no_findings_witness :
  let data := YDict [(py "name", YStr (py "Hello"));
                     (py "limits", YDict [(py "time_multiplier", YInt 5)])] in
  let default := YDict [(py "name", YNone); (py "license", YStr (py "unknown"));
                        (py "limits", YDict [(py "time_multiplier", YInt 2)])] in
  md_clean data default [] /\
  check_metadata_recursive (py "hello") data default [] [] = (Ok tt, []).
Proof.
  cbv zeta.
  assert (H : md_clean (YDict [(py "name", YStr (py "Hello"));
                     (py "limits", YDict [(py "time_multiplier", YInt 5)])])
                (YDict [(py "name", YNone); (py "license", YStr (py "unknown"));
                        (py "limits", YDict [(py "time_multiplier", YInt 2)])]) []).
  { cbn. repeat first [exact I | reflexivity | split | eexists]. }
  split; [exact H|]. exact (metadata_clean_no_findings _ _ _ _ _ H).
Defined.

Lemma display_report_witness :
  let sl := [(py "hello/problem.yaml", [VStr (py "a")]); (py "_general_", [VStr (py "b")]);
             (py "hello", [VStr (py "c"); VStr (py "d")])] in
  NoDup (map fst sl) /\
  filter (fun x => negb (is_header x)) (display_lines (fun _ => py "m") (string_log sl)) =
    flat_map (fun k => map (item_line (fun _ => py "m") k) (messages_for k (string_log sl)))
      (sorted (map fst sl)).
Proof.
  cbv zeta.
  assert (H : NoDup (map fst [(py "hello/problem.yaml", [VStr (py "a")]);
             (py "_general_", [VStr (py "b")]); (py "hello", [VStr (py "c"); VStr (py "d")])])).
  { apply str_nodupb_NoDup. vm_compute. reflexivity. }
  split; [exact H|]. exact (proj1 (proj2 (display_report _ _ H))).
Defined.
